(** * A shallow embedding of the @marianmeres/kv storage adapters

    The development follows the TypeScript sources of the package:
    - [src/adapter/abstract.ts]  : the shared adapter class ([AdapterAbstract]);
    - [src/adapter/memory.ts]    : the in-memory adapter ([AdapterMemory]);
    - [src/adapter/postgres.ts]  : the relational adapter ([AdapterPostgres]);
    - [src/adapter/redis.ts]     : the remote-server adapter ([AdapterRedis]);
    - [src/adapter/deno-kv.ts]   : the Deno KV adapter ([AdapterDenoKv]).

    Conventions of the model.
    - Time is a [Z] number of milliseconds ([Date.now()]); every public
      operation reads the clock once, so it receives one [now].
    - Strings are Rocq strings of 8-bit code units; the JavaScript default
      sort ([toSorted()]) compares code units, which is [String.compare].
    - A JavaScript [Map] (and a plain object used as a record) is an
      association list kept in insertion order, as JavaScript iterates it.
    - JSON numbers are integers ([Z]); floating-point formatting is not
      modelled.
    - Every operation runs in a state monad with errors; an error carries the
      state reached at the point of the throw, so effects of earlier steps
      stay visible where the source does not roll them back. *)

From Stdlib Require Import Ascii String ZArith Lia Bool.
From Stdlib Require DecimalN DecimalFacts.
From stdpp Require Import base list strings.

Local Open Scope bool_scope.
Set Warnings "-register-all".

(* ================================================================== *)
(** ** Characters and strings *)

Definition chr (n : nat) : ascii := ascii_of_nat n.
Definition quote : ascii := chr 34.
Definition bsl : ascii := chr 92.

Definition str1 (c : ascii) : string := String c EmptyString.

(** [String.prototype.slice(n)] for a non-negative [n]. *)
Fixpoint str_drop (n : nat) (s : string) : string :=
  match n, s with
  | O, _ => s
  | S n', String _ s' => str_drop n' s'
  | S _, EmptyString => EmptyString
  end.

(** [String.prototype.startsWith] / the prefix test. *)
Fixpoint strip_prefix (p s : string) : option string :=
  match p, s with
  | EmptyString, _ => Some s
  | String a p', String b s' =>
      if Ascii.eqb a b then strip_prefix p' s' else None
  | String _ _, EmptyString => None
  end.

(** The code-unit order of [Array.prototype.toSorted()] without comparator. *)
Definition js_le (s t : string) : bool := String.leb s t.

(** A stable insertion sort: for a total order its result is the unique
    sorted permutation, the result of [toSorted]. *)
Fixpoint insert_by {A} (le : A -> A -> bool) (x : A) (l : list A) : list A :=
  match l with
  | [] => [x]
  | y :: l' => if le x y then x :: y :: l' else y :: insert_by le x l'
  end.

Fixpoint sort_by {A} (le : A -> A -> bool) (l : list A) : list A :=
  match l with
  | [] => []
  | x :: l' => insert_by le x (sort_by le l')
  end.

Definition toSorted (l : list string) : list string := sort_by js_le l.

Fixpoint sorted_by {A} (le : A -> A -> bool) (l : list A) : bool :=
  match l with
  | x :: ((y :: _) as l') => le x y && sorted_by le l'
  | _ => true
  end.

(* ================================================================== *)
(** ** JSON values and the codec [JSON.stringify] / [JSON.parse] *)

Inductive json : Type :=
| JNull
| JBool (b : bool)
| JNum (n : Z)
| JStr (s : string)
| JArr (xs : list json)
| JObj (kvs : list (string * json)).

Section json_ind'.
Variable P : json -> Prop.
Hypothesis HNull : P JNull.
Hypothesis HBool : forall b, P (JBool b).
Hypothesis HNum : forall n, P (JNum n).
Hypothesis HStr : forall s, P (JStr s).
Hypothesis HArr : forall xs, Forall P xs -> P (JArr xs).
Hypothesis HObj : forall kvs, Forall (fun kv => P kv.2) kvs -> P (JObj kvs).

Fixpoint json_ind' (v : json) : P v :=
  match v with
  | JNull => HNull
  | JBool b => HBool b
  | JNum n => HNum n
  | JStr s => HStr s
  | JArr xs =>
      HArr xs ((fix go (l : list json) : Forall P l :=
                  match l with
                  | [] => Forall_nil_2 _
                  | x :: l' => Forall_cons_2 _ x l' (json_ind' x) (go l')
                  end) xs)
  | JObj kvs =>
      HObj kvs ((fix go (l : list (string * json)) :
                    Forall (fun kv => P kv.2) l :=
                  match l with
                  | [] => Forall_nil_2 _
                  | (k, x) :: l' =>
                      Forall_cons_2 (fun kv => P kv.2) (k, x) l' (json_ind' x) (go l')
                  end) kvs)
  end.
End json_ind'.

(** A JavaScript value handed to [set]: [undefined] or a JSON value. *)
Inductive jsval : Type :=
| JUndefined
| JValue (v : json).

(** Property assignment [o[k] = v] on a plain object: an existing property
    keeps its position, a new one is appended. *)
Fixpoint obj_set {A} (k : string) (v : A) (o : list (string * A)) :
    list (string * A) :=
  match o with
  | [] => [(k, v)]
  | (k', v') :: o' =>
      if String.eqb k k' then (k, v) :: o' else (k', v') :: obj_set k v o'
  end.

Fixpoint obj_get {A} (k : string) (o : list (string * A)) : option A :=
  match o with
  | [] => None
  | (k', v') :: o' => if String.eqb k k' then Some v' else obj_get k o'
  end.

(** JavaScript truthiness of a JSON value. *)
Definition truthy (v : json) : bool :=
  match v with
  | JNull => false
  | JBool b => b
  | JNum n => negb (Z.eqb n 0)
  | JStr s => negb (String.eqb s EmptyString)
  | JArr _ | JObj _ => true
  end.

(** A JSON value a JavaScript program can hold: object keys are distinct. *)
Fixpoint json_wf (v : json) : bool :=
  match v with
  | JArr xs => forallb json_wf xs
  | JObj kvs =>
      bool_decide (NoDup kvs.*1) && forallb (fun kv => json_wf kv.2) kvs
  | _ => true
  end.

(** A value handed to [set] that JSON represents faithfully. *)
Definition jsval_wf (v : jsval) : bool :=
  match v with JUndefined => true | JValue j => json_wf j end.

(** *** [JSON.stringify] *)

Definition hex_digit (n : nat) : ascii :=
  if Nat.ltb n 10 then chr (48 + n) else chr (87 + n).

(** One code unit of a string literal, escaped as [JSON.stringify] does. *)
Definition escape_char (c : ascii) : string :=
  let n := nat_of_ascii c in
  if Nat.eqb n 34 then String bsl (str1 quote)
  else if Nat.eqb n 92 then String bsl (str1 bsl)
  else if Nat.eqb n 8 then String bsl (str1 "b")
  else if Nat.eqb n 12 then String bsl (str1 "f")
  else if Nat.eqb n 10 then String bsl (str1 "n")
  else if Nat.eqb n 13 then String bsl (str1 "r")
  else if Nat.eqb n 9 then String bsl (str1 "t")
  else if Nat.ltb n 32 then
    String bsl (String "u" (String "0" (String "0"
      (String (hex_digit (Nat.div n 16)) (str1 (hex_digit (Nat.modulo n 16)))))))
  else str1 c.

Fixpoint escape (s : string) : string :=
  match s with
  | EmptyString => EmptyString
  | String c s' => escape_char c +:+ escape s'
  end.

Definition stringify_str (s : string) : string :=
  String quote (escape s +:+ str1 quote).

Definition digit_char (d : nat) : ascii := chr (48 + d).

Fixpoint uint_to_string (d : Decimal.uint) : string :=
  match d with
  | Decimal.Nil => EmptyString
  | Decimal.D0 d' => String (digit_char 0) (uint_to_string d')
  | Decimal.D1 d' => String (digit_char 1) (uint_to_string d')
  | Decimal.D2 d' => String (digit_char 2) (uint_to_string d')
  | Decimal.D3 d' => String (digit_char 3) (uint_to_string d')
  | Decimal.D4 d' => String (digit_char 4) (uint_to_string d')
  | Decimal.D5 d' => String (digit_char 5) (uint_to_string d')
  | Decimal.D6 d' => String (digit_char 6) (uint_to_string d')
  | Decimal.D7 d' => String (digit_char 7) (uint_to_string d')
  | Decimal.D8 d' => String (digit_char 8) (uint_to_string d')
  | Decimal.D9 d' => String (digit_char 9) (uint_to_string d')
  end.

Definition stringify_num (n : Z) : string :=
  match n with
  | Z0 => str1 (digit_char 0)
  | Zpos p => uint_to_string (N.to_uint (Npos p))
  | Zneg p => String "-" (uint_to_string (N.to_uint (Npos p)))
  end.

Fixpoint stringify (v : json) : string :=
  match v with
  | JNull => "null"
  | JBool true => "true"
  | JBool false => "false"
  | JNum n => stringify_num n
  | JStr s => stringify_str s
  | JArr xs => String "[" (String.concat "," (map stringify xs) +:+ "]")
  | JObj kvs =>
      String "{" (String.concat ","
        (map (fun kv => stringify_str kv.1 +:+ String ":" (stringify kv.2)) kvs)
        +:+ "}")
  end.

(** [JSON.stringify(value)]: [undefined] for [undefined]. *)
Definition JSON_stringify (v : jsval) : option string :=
  match v with
  | JUndefined => None
  | JValue j => Some (stringify j)
  end.

(** *** [JSON.parse]

    A recursive-descent reader of the JSON grammar: whitespace, literals,
    integers (the integer part of the number grammar; a fraction or an
    exponent is left unread and so rejected), string literals with their
    escapes (a [\uXXXX] escape above [0xFF] is outside the 8-bit strings of
    the model and rejected), arrays and objects. A repeated object key
    overwrites the earlier value, as property assignment does. [None] is a
    thrown [SyntaxError]. *)

Definition is_ws (c : ascii) : bool :=
  let n := nat_of_ascii c in
  Nat.eqb n 32 || Nat.eqb n 9 || Nat.eqb n 10 || Nat.eqb n 13.

Definition is_digit (c : ascii) : bool :=
  let n := nat_of_ascii c in Nat.leb 48 n && Nat.ltb n 58.

Fixpoint skip_ws (s : string) : string :=
  match s with
  | String c s' => if is_ws c then skip_ws s' else s
  | EmptyString => EmptyString
  end.

Definition hex_value (c : ascii) : option nat :=
  let n := nat_of_ascii c in
  if Nat.leb 48 n && Nat.ltb n 58 then Some (n - 48)
  else if Nat.leb 97 n && Nat.ltb n 103 then Some (n - 87)
  else if Nat.leb 65 n && Nat.ltb n 71 then Some (n - 55)
  else None.

Definition hex4 (a b c d : ascii) : option nat :=
  match hex_value a, hex_value b, hex_value c, hex_value d with
  | Some x, Some y, Some z, Some w => Some (((x * 16 + y) * 16 + z) * 16 + w)
  | _, _, _, _ => None
  end.

Definition cons_fst (c : ascii) (r : option (string * string)) :
    option (string * string) :=
  match r with
  | Some (x, rest) => Some (String c x, rest)
  | None => None
  end.

(** The body of a string literal, after the opening quote. *)
Fixpoint parse_strbody (s : string) : option (string * string) :=
  match s with
  | EmptyString => None
  | String c r =>
      let n := nat_of_ascii c in
      if Nat.eqb n 34 then Some (EmptyString, r)
      else if Nat.eqb n 92 then
        match r with
        | EmptyString => None
        | String e r' =>
            let m := nat_of_ascii e in
            if Nat.eqb m 34 then cons_fst quote (parse_strbody r')
            else if Nat.eqb m 92 then cons_fst bsl (parse_strbody r')
            else if Nat.eqb m 47 then cons_fst (chr 47) (parse_strbody r')
            else if Nat.eqb m 98 then cons_fst (chr 8) (parse_strbody r')
            else if Nat.eqb m 102 then cons_fst (chr 12) (parse_strbody r')
            else if Nat.eqb m 110 then cons_fst (chr 10) (parse_strbody r')
            else if Nat.eqb m 114 then cons_fst (chr 13) (parse_strbody r')
            else if Nat.eqb m 116 then cons_fst (chr 9) (parse_strbody r')
            else if Nat.eqb m 117 then
              match r' with
              | String h1 (String h2 (String h3 (String h4 r''))) =>
                  match hex4 h1 h2 h3 h4 with
                  | Some v =>
                      if Nat.ltb v 256 then cons_fst (chr v) (parse_strbody r'')
                      else None
                  | None => None
                  end
              | _ => None
              end
            else None
        end
      else if Nat.ltb n 32 then None
      else cons_fst c (parse_strbody r)
  end.

(** Digits [0-9]* as a decimal numeral. *)
Fixpoint read_digits (s : string) : Decimal.uint * string :=
  match s with
  | String c s' =>
      if is_digit c then
        let (d, r) := read_digits s' in
        let n := nat_of_ascii c - 48 in
        ((match n with
          | 0 => Decimal.D0 | 1 => Decimal.D1 | 2 => Decimal.D2
          | 3 => Decimal.D3 | 4 => Decimal.D4 | 5 => Decimal.D5
          | 6 => Decimal.D6 | 7 => Decimal.D7 | 8 => Decimal.D8
          | _ => Decimal.D9
          end) d, r)
      else (Decimal.Nil, s)
  | EmptyString => (Decimal.Nil, EmptyString)
  end.

(** The integer part [0 | [1-9][0-9]*] of a number. *)
Definition parse_uint (s : string) : option (N * string) :=
  match s with
  | String c r =>
      if Nat.eqb (nat_of_ascii c) 48 then Some (0%N, r)
      else if is_digit c then
        let (d, r') := read_digits s in Some (N.of_uint d, r')
      else None
  | EmptyString => None
  end.

Definition char_is (c : ascii) (n : nat) : bool := Nat.eqb (nat_of_ascii c) n.

Fixpoint parse_value (fuel : nat) (s : string) {struct fuel} :
    option (json * string) :=
  match fuel with
  | O => None
  | S f =>
      match skip_ws s with
      | EmptyString => None
      | String c r =>
          if char_is c 110 then
            match strip_prefix "ull" r with Some r' => Some (JNull, r') | None => None end
          else if char_is c 116 then
            match strip_prefix "rue" r with Some r' => Some (JBool true, r') | None => None end
          else if char_is c 102 then
            match strip_prefix "alse" r with Some r' => Some (JBool false, r') | None => None end
          else if char_is c 34 then
            match parse_strbody r with Some (x, r') => Some (JStr x, r') | None => None end
          else if char_is c 91 then
            match skip_ws r with
            | String d r' =>
                if char_is d 93 then Some (JArr [], r')
                else match parse_elems f r with
                     | Some (xs, r'') => Some (JArr xs, r'')
                     | None => None
                     end
            | EmptyString => None
            end
          else if char_is c 123 then
            match skip_ws r with
            | String d r' =>
                if char_is d 125 then Some (JObj [], r')
                else match parse_members f r with
                     | Some (kvs, r'') =>
                         Some (JObj (fold_left (fun o kv => obj_set kv.1 kv.2 o) kvs []), r'')
                     | None => None
                     end
            | EmptyString => None
            end
          else if char_is c 45 then
            match parse_uint r with
            | Some (n, r') => Some (JNum (- Z.of_N n)%Z, r')
            | None => None
            end
          else
            match parse_uint (String c r) with
            | Some (n, r') => Some (JNum (Z.of_N n), r')
            | None => None
            end
      end
  end
(** Array elements up to and including the closing bracket. *)
with parse_elems (fuel : nat) (s : string) {struct fuel} :
    option (list json * string) :=
  match fuel with
  | O => None
  | S f =>
      match parse_value f s with
      | Some (v, r) =>
          match skip_ws r with
          | String c r' =>
              if char_is c 44 then
                match parse_elems f r' with
                | Some (vs, r'') => Some (v :: vs, r'')
                | None => None
                end
              else if char_is c 93 then Some ([v], r')
              else None
          | EmptyString => None
          end
      | None => None
      end
  end
(** Object members up to and including the closing brace. *)
with parse_members (fuel : nat) (s : string) {struct fuel} :
    option (list (string * json) * string) :=
  match fuel with
  | O => None
  | S f =>
      match skip_ws s with
      | String c r =>
          if char_is c 34 then
            match parse_strbody r with
            | Some (k, r1) =>
                match skip_ws r1 with
                | String c1 r2 =>
                    if char_is c1 58 then
                      match parse_value f r2 with
                      | Some (v, r3) =>
                          match skip_ws r3 with
                          | String c3 r4 =>
                              if char_is c3 44 then
                                match parse_members f r4 with
                                | Some (kvs, r5) => Some ((k, v) :: kvs, r5)
                                | None => None
                                end
                              else if char_is c3 125 then Some ([(k, v)], r4)
                              else None
                          | EmptyString => None
                          end
                      | None => None
                      end
                    else None
                | EmptyString => None
                end
            | None => None
            end
          else None
      | EmptyString => None
      end
  end.

(** [JSON.parse(text)]: the whole text is one value up to whitespace. *)
Definition JSON_parse (s : string) : option json :=
  match parse_value (S (String.length s)) s with
  | Some (v, r) =>
      match skip_ws r with EmptyString => Some v | String _ _ => None end
  | None => None
  end.

(** Size of a value: bounds the nesting the reader has to traverse. *)
Fixpoint jsize (v : json) : nat :=
  match v with
  | JArr xs => S (sum_list_with (fun x => S (jsize x)) xs)
  | JObj kvs => S (sum_list_with (fun kv => S (jsize kv.2)) kvs)
  | _ => 1
  end.

(** A text that cannot continue a number literal. *)
Definition no_digit_start (t : string) : bool :=
  match t with String c _ => negb (is_digit c) | EmptyString => true end.

(** One [key:value] member of an object as [JSON.stringify] writes it. *)
Definition member (kv : string * json) : string :=
  stringify_str kv.1 +:+ String ":" (stringify kv.2).

(** The reader gives back any well-formed value from its text, followed by
    any text that cannot extend it. *)
Definition parses_back (v : json) : Prop :=
  json_wf v = true -> forall fuel t, jsize v <= fuel -> no_digit_start t = true ->
  parse_value fuel (stringify v +:+ t) = Some (v, t).

(* ================================================================== *)
(** ** Shared adapter vocabulary ([abstract.ts]) *)

(** The errors an adapter operation can throw. *)
Inductive kverr : Type :=
| ENotInitialized   (* "Client does not appear to be initialized" *)
| EClusterMode      (* pattern operations in Redis cluster mode *)
| ESyntax           (* a [SyntaxError] thrown by [JSON.parse] or [RegExp] *)
| EBackend          (* a command or query refused by the storage engine *)
| EUnmodelled.      (* input outside the fragment this model covers *)

(** Operations run in a state monad with errors; a thrown error keeps the
    state reached when it was thrown. *)
Definition ST (S A : Type) : Type := S -> (kverr + A) * S.

Definition st_ret {S A} (a : A) : ST S A := fun s => (inr a, s).
Definition st_bind {S A B} (m : ST S A) (k : A -> ST S B) : ST S B :=
  fun s => match m s with
           | (inl e, s') => (inl e, s')
           | (inr a, s') => k a s'
           end.
Definition st_throw {S A} (e : kverr) : ST S A := fun s => (inl e, s).
Definition st_gets {S A} (f : S -> A) : ST S A := fun s => (inr (f s), s).
Definition st_modify {S} (f : S -> S) : ST S unit := fun s => (inr tt, f s).

Notation "'let!' x ':=' m 'in' k" := (st_bind m (fun x => k))
  (at level 200, x name, m at level 200, k at level 200).

Definition st_map {S A B} (f : A -> B) (m : ST S A) : ST S B :=
  st_bind m (fun a => st_ret (f a)).
Notation "f <$$> m" := (st_map f m) (at level 61, left associativity).

(** A [for ... of] loop collecting the results of its body. *)
Fixpoint st_mapM {S A B} (f : A -> ST S B) (l : list A) : ST S (list B) :=
  match l with
  | [] => st_ret []
  | x :: l' => let! b := f x in let! bs := st_mapM f l' in st_ret (b :: bs)
  end.

(** [Array.prototype.filter] with a callback that has effects. *)
Fixpoint st_filter {S A} (f : A -> ST S bool) (l : list A) : ST S (list A) :=
  match l with
  | [] => st_ret []
  | x :: l' =>
      let! b := f x in let! r := st_filter f l' in
      st_ret (if b then x :: r else r)
  end.

(** [SetOptions]: the [ttl] field, absent ([undefined]) or a number. *)
Definition SetOptions : Type := option Z.

(** [options.ttl || this.options.defaultTtl]: a number is truthy iff it is
    not [0]. *)
Definition ttl_or (ttl : SetOptions) (defaultTtl : Z) : Z :=
  match ttl with
  | Some t => if Z.eqb t 0 then defaultTtl else t
  | None => defaultTtl
  end.

(** [options.ttl || this.options.defaultTtl || undefined]. *)
Definition ttl_or_undefined (ttl : SetOptions) (defaultTtl : Z) : option Z :=
  let t := ttl_or ttl defaultTtl in if Z.eqb t 0 then None else Some t.

(** The [Date | null | false] result of [ttl]; a date is its epoch
    milliseconds. *)
Inductive ttl_result : Type :=
| TtlDate (at_ms : Z)
| TtlNull
| TtlFalse.

(** [Operation]: one element of a transaction. *)
Inductive Operation : Type :=
| OpSet (key : string) (value : jsval) (options : SetOptions)
| OpGet (key : string)
| OpDelete (key : string).

(** The uniform operation set of [AdapterAbstract] (with their arguments). *)
Inductive kvop : Type :=
| KSet (key : string) (value : jsval) (options : SetOptions)
| KGet (key : string)
| KDelete (key : string)
| KExists (key : string)
| KKeys (pattern : string)
| KClear (pattern : string)
| KSetMultiple (pairs : list (string * jsval)) (options : SetOptions)
| KGetMultiple (keys : list string)
| KExpire (key : string) (ttl : Z)
| KTtl (key : string)
| KTransaction (ops : list Operation)
| KInfo.

(** What an operation resolves to. A transaction returns an array of
    JavaScript values: booleans are [JBool], values of [get] as they are. *)
Inductive kvres : Type :=
| RBool (b : bool)
| RValue (v : json)
| RKeys (ks : list string)
| RCount (n : Z)
| RBools (bs : list bool)
| RRecord (r : list (string * json))
| RTtl (t : ttl_result)
| RArray (xs : list json)
| RInfo (type : string).

Definition _withNs (namespace key : string) : string := namespace +:+ key.

Definition _withoutNs (namespace key : string) : string :=
  match namespace with
  | EmptyString => key
  | String _ _ => str_drop (String.length namespace) key
  end.

(** Operations on a JavaScript [Map] kept in insertion order. *)
Fixpoint map_has {A} (k : string) (m : list (string * A)) : bool :=
  match m with
  | [] => false
  | (k', _) :: m' => String.eqb k k' || map_has k m'
  end.

Definition map_delete {A} (k : string) (m : list (string * A)) : list (string * A) :=
  List.filter (fun kv => negb (String.eqb kv.1 k)) m.

(** [String.prototype.endsWith]. *)
Definition ends_with (suffix s : string) : bool :=
  Nat.leb (String.length suffix) (String.length s) &&
  String.eqb (str_drop (String.length s - String.length suffix) s) suffix.

(** [String.prototype.replace(/c/g, r)]. *)
Fixpoint replace_all (c : ascii) (r : string) (s : string) : string :=
  match s with
  | EmptyString => EmptyString
  | String d s' =>
      if Ascii.eqb c d then r +:+ replace_all c r s' else String d (replace_all c r s')
  end.

(* ================================================================== *)
(** ** Regular expressions built from a pattern

    [keys] turns a pattern into [new RegExp(`^${regexPattern}$`)] where
    [regexPattern] is [pattern.replace(/\*/g, ".*").replace(/\?/g, ".")].
    The model covers the regular expressions whose source is made of
    literal characters, [.] and [.*]; a source with any other syntax
    character ([\ ^ $ + ? ( ) [ ] { } |], or a [*] after anything but
    [.]) is outside it. *)

Definition glob_to_regex_source (pattern : string) : string :=
  replace_all "?" "." (replace_all "*" ".*" pattern).

Inductive rtok : Type :=
| RChar (c : ascii)   (* a literal character *)
| RDot                (* [.]: any character but a line terminator *)
| RDotStar.           (* [.*] *)

Definition regex_syntax_char (c : ascii) : bool :=
  existsb (Ascii.eqb c) ["\"; "^"; "$"; "+"; "?"; "("; ")"; "["; "]"; "{"; "}"; "|"; "*"]%char.

Fixpoint regex_tokens (src : string) : option (list rtok) :=
  match src with
  | EmptyString => Some []
  | String "." (String "*" r) => cons RDotStar <$> regex_tokens r
  | String "." r => cons RDot <$> regex_tokens r
  | String c r =>
      if regex_syntax_char c then None else cons (RChar c) <$> regex_tokens r
  end.

(** [.] does not match [\n] nor [\r] (the other line terminators are not
    8-bit characters). *)
Definition line_terminator (c : ascii) : bool :=
  Nat.eqb (nat_of_ascii c) 10 || Nat.eqb (nat_of_ascii c) 13.

(** [regex.test(s)] for the anchored regex [^ts$]. *)
Fixpoint regex_full_match (ts : list rtok) (s : string) : bool :=
  match ts with
  | [] => match s with EmptyString => true | String _ _ => false end
  | RChar c :: ts' =>
      match s with
      | String d s' => Ascii.eqb c d && regex_full_match ts' s'
      | EmptyString => false
      end
  | RDot :: ts' =>
      match s with
      | String d s' => negb (line_terminator d) && regex_full_match ts' s'
      | EmptyString => false
      end
  | RDotStar :: ts' =>
      (fix go (s : string) : bool :=
         regex_full_match ts' s ||
         match s with
         | String d s' => negb (line_terminator d) && go s'
         | EmptyString => false
         end) s
  end.

(** [new RegExp(`^${regexPattern}$`)] for the source of a pattern. *)
Definition glob_regex (pattern : string) : option (list rtok) :=
  regex_tokens (glob_to_regex_source pattern).

(* ================================================================== *)
(** ** The in-memory adapter ([memory.ts]) *)

Record AdapterMemory : Type := mkAdapterMemory {
  mem_initialized : bool;
  mem_namespace : string;
  mem_defaultTtl : Z;
  mem_ttlCleanupIntervalSec : Z;
  (** [#store]: full key to [JSON.stringify(value)], which is [undefined]
      for an [undefined] value. *)
  mem_store : list (string * option string);
  (** [#expirations]: full key to expiry instant. *)
  mem_expirations : list (string * Z)
}.

Definition mem_with_maps (s : AdapterMemory) (store : list (string * option string))
    (exps : list (string * Z)) : AdapterMemory :=
  mkAdapterMemory (mem_initialized s) (mem_namespace s) (mem_defaultTtl s)
    (mem_ttlCleanupIntervalSec s) store exps.

Definition mem_with_initialized (s : AdapterMemory) (b : bool) : AdapterMemory :=
  mkAdapterMemory b (mem_namespace s) (mem_defaultTtl s)
    (mem_ttlCleanupIntervalSec s) (mem_store s) (mem_expirations s).

(** [new AdapterMemory(namespace, { defaultTtl, ttlCleanupIntervalSec })]:
    [None] when the namespace check throws. *)
Definition new_AdapterMemory (namespace : string) (defaultTtl interval : Z) :
    option AdapterMemory :=
  if String.eqb namespace EmptyString || ends_with ":" namespace
  then Some (mkAdapterMemory false namespace defaultTtl interval [] [])
  else None.

Definition MemM := ST AdapterMemory.

Definition mem_assertInitialized : MemM unit :=
  fun s => if mem_initialized s then (inr tt, s) else (inl ENotInitialized, s).

(** Removing a key from both maps. *)
Definition mem_drop (key : string) (s : AdapterMemory) : AdapterMemory :=
  mem_with_maps s (map_delete key (mem_store s)) (map_delete key (mem_expirations s)).

(** [#maybeTTLCleanup]: the sweep, when the interval is non-zero. Deleting
    the visited entry does not disturb the iteration of a [Map]. *)
Definition mem_maybeTTLCleanup (now : Z) (s : AdapterMemory) : AdapterMemory :=
  if Z.eqb (mem_ttlCleanupIntervalSec s) 0 then s
  else fold_left (fun s' ke => if Z.leb ke.2 now then mem_drop ke.1 s' else s')
         (mem_expirations s) s.

(** [#isExpired(key)]. *)
Definition mem_isExpired (now : Z) (key : string) : MemM bool :=
  fun s =>
    match obj_get key (mem_expirations s) with
    | None => (inr false, s)
    | Some expiresAt =>
        if Z.gtb now expiresAt then (inr true, mem_drop key s) else (inr false, s)
    end.

Definition mem_initialize (now : Z) (s : AdapterMemory) : AdapterMemory :=
  mem_maybeTTLCleanup now (mem_with_initialized s true).

Definition mem_destroy (s : AdapterMemory) : AdapterMemory :=
  mem_with_initialized s false.

(** [set(key, value, options)]. *)
Definition mem_set (now : Z) (key : string) (value : jsval) (options : SetOptions) :
    MemM bool :=
  let! _ := mem_assertInitialized in
  fun s =>
    let k := _withNs (mem_namespace s) key in
    let store := obj_set k (JSON_stringify value) (mem_store s) in
    let ttl := ttl_or options (mem_defaultTtl s) in
    let exps := if negb (Z.eqb ttl 0)
                then obj_set k (now + ttl * 1000)%Z (mem_expirations s)
                else map_delete k (mem_expirations s) in
    (inr true, mem_with_maps s store exps).

(** [get(key)]; [JSON.parse] of a stored text. *)
Definition mem_get (now : Z) (key : string) : MemM json :=
  let! _ := mem_assertInitialized in
  let! k := st_gets (fun s => _withNs (mem_namespace s) key) in
  let! expired := mem_isExpired now k in
  if expired then st_ret JNull else
  fun s =>
    match obj_get k (mem_store s) with
    | None | Some None => (inr JNull, s)
    | Some (Some value) =>
        match JSON_parse value with
        | Some v => (inr v, s)
        | None => (inl ESyntax, s)
        end
    end.

(** [delete(key)]. *)
Definition mem_delete (key : string) : MemM bool :=
  let! _ := mem_assertInitialized in
  fun s =>
    let k := _withNs (mem_namespace s) key in
    (inr (map_has k (mem_store s)), mem_drop k s).

(** [exists(key)]. *)
Definition mem_exists (now : Z) (key : string) : MemM bool :=
  let! _ := mem_assertInitialized in
  let! k := st_gets (fun s => _withNs (mem_namespace s) key) in
  let! expired := mem_isExpired now k in
  if expired then st_ret false else st_gets (fun s => map_has k (mem_store s)).

(** [keys(pattern)]. *)
Definition mem_keys (now : Z) (pattern : string) : MemM (list string) :=
  let! _ := mem_assertInitialized in
  let! stored := st_gets (fun s => map fst (mem_store s)) in
  let! live := st_filter (fun k => let! e := mem_isExpired now k in st_ret (negb e)) stored in
  let! ns := st_gets mem_namespace in
  let all := toSorted (map (_withoutNs ns) live) in
  if String.eqb pattern "*" then st_ret all else
  match glob_regex pattern with
  | Some re => st_ret (List.filter (regex_full_match re) all)
  | None => st_throw EUnmodelled
  end.

(** [clear(pattern)]. *)
Definition mem_clear (now : Z) (pattern : string) : MemM Z :=
  let! _ := mem_assertInitialized in
  let! keysToDelete := mem_keys now pattern in
  let! ns := st_gets mem_namespace in
  let! _ := st_modify (fun s => fold_left (fun s' key => mem_drop (_withNs ns key) s')
                                  keysToDelete s) in
  st_ret (Z.of_nat (length keysToDelete)).

(** [setMultiple(keyValuePairs, options)]. *)
Definition mem_setMultiple (now : Z) (pairs : list (string * jsval)) (options : SetOptions) :
    MemM (list bool) :=
  let! _ := mem_assertInitialized in
  st_mapM (fun kv => let! _ := mem_set now kv.1 kv.2 options in st_ret true) pairs.

(** [getMultiple(keys)]: [result[key] = await this.get(key)] in order. *)
Definition mem_getMultiple (now : Z) (keys : list string) : MemM (list (string * json)) :=
  let! _ := mem_assertInitialized in
  (fix go (ks : list string) (result : list (string * json)) :=
     match ks with
     | [] => st_ret result
     | key :: ks' => let! v := mem_get now key in go ks' (obj_set key v result)
     end) keys [].

(** [expire(key, ttl)]. *)
Definition mem_expire (now : Z) (key : string) (ttl : Z) : MemM bool :=
  let! _ := mem_assertInitialized in
  let! k := st_gets (fun s => _withNs (mem_namespace s) key) in
  let! has := st_gets (fun s => map_has k (mem_store s)) in
  let! expired := (if has then mem_isExpired now k else st_ret false) in
  if negb has || expired then st_ret false else
  let! _ := st_modify (fun s => mem_with_maps s (mem_store s)
                                  (obj_set k (now + ttl * 1000)%Z (mem_expirations s))) in
  st_ret true.

(** [ttl(key)]. *)
Definition mem_ttl (now : Z) (key : string) : MemM ttl_result :=
  let! _ := mem_assertInitialized in
  let! k := st_gets (fun s => _withNs (mem_namespace s) key) in
  let! has := st_gets (fun s => map_has k (mem_store s)) in
  if negb has then st_ret TtlFalse else
  let! expired := mem_isExpired now k in
  if expired then st_ret TtlFalse else
  st_gets (fun s => match obj_get k (mem_expirations s) with
                    | None => TtlNull
                    | Some expiresAt => TtlDate expiresAt
                    end).

(** One operation of a sequential transaction (memory, Deno KV). *)
Definition mem_txop (now : Z) (op : Operation) : MemM json :=
  match op with
  | OpSet key value options => let! b := mem_set now key value options in st_ret (JBool b)
  | OpGet key => mem_get now key
  | OpDelete key => let! b := mem_delete key in st_ret (JBool b)
  end.

(** [transaction(operations)]: sequential, no rollback. *)
Definition mem_transaction (now : Z) (ops : list Operation) : MemM (list json) :=
  let! _ := mem_assertInitialized in
  st_mapM (mem_txop now) ops.

(** [info()]: inherited from [AdapterAbstract], no initialisation check. *)
Definition mem_info (s : AdapterMemory) : string := "memory".

(** A public operation of the in-memory adapter, called at instant [now]. *)
Definition mem_run (now : Z) (op : kvop) : MemM kvres :=
  match op with
  | KSet k v o => RBool <$$> mem_set now k v o
  | KGet k => RValue <$$> mem_get now k
  | KDelete k => RBool <$$> mem_delete k
  | KExists k => RBool <$$> mem_exists now k
  | KKeys p => RKeys <$$> mem_keys now p
  | KClear p => RCount <$$> mem_clear now p
  | KSetMultiple kvs o => RBools <$$> mem_setMultiple now kvs o
  | KGetMultiple ks => RRecord <$$> mem_getMultiple now ks
  | KExpire k t => RBool <$$> mem_expire now k t
  | KTtl k => RTtl <$$> mem_ttl now k
  | KTransaction ops => RArray <$$> mem_transaction now ops
  | KInfo => st_gets (fun s => RInfo (mem_info s))
  end.

(* ================================================================== *)
(** ** The Deno KV adapter ([deno-kv.ts])

    The database is modelled as its entries in key order: a key is a list
    of string parts, ordered part by part, the parts by their bytes, a key
    before its extensions. An entry written with [expireIn] keeps its
    deadline; Deno KV removes such entries at an unspecified later time,
    which is not an operation of the adapter and not modelled. *)

Fixpoint kvkey_lt (a b : list string) : bool :=
  match a, b with
  | [], [] => false
  | [], _ :: _ => true
  | _ :: _, [] => false
  | x :: a', y :: b' => if String.eqb x y then kvkey_lt a' b' else String.ltb x y
  end.

Definition list_eqb (a b : list string) : bool := bool_decide (a = b).

Definition kv_entry : Type := list string * (string * option Z).

(** [db.set(key, value, { expireIn })]. *)
Fixpoint kv_set (key : list string) (e : string * option Z) (db : list kv_entry) :
    list kv_entry :=
  match db with
  | [] => [(key, e)]
  | (k, e') :: db' =>
      if list_eqb key k then (key, e) :: db'
      else if kvkey_lt key k then (key, e) :: db
      else (k, e') :: kv_set key e db'
  end.

(** [db.get(key)], the [value] of the returned row. *)
Fixpoint kv_get (key : list string) (db : list kv_entry) : option string :=
  match db with
  | [] => None
  | (k, (v, _)) :: db' => if list_eqb key k then Some v else kv_get key db'
  end.

Definition kv_delete (key : list string) (db : list kv_entry) : list kv_entry :=
  List.filter (fun e => negb (list_eqb e.1 key)) db.

Fixpoint list_prefix (p k : list string) : bool :=
  match p, k with
  | [], _ => true
  | x :: p', y :: k' => String.eqb x y && list_prefix p' k'
  | _ :: _, [] => false
  end.

(** [db.list({ prefix })]: the keys strictly extending [prefix], in key
    order. *)
Definition kv_list (prefix : list string) (db : list kv_entry) : list (list string) :=
  List.filter (fun k => list_prefix prefix k && negb (list_eqb prefix k)) (map fst db).

Record AdapterDenoKv : Type := mkAdapterDenoKv {
  deno_initialized : bool;
  deno_namespace : string;
  deno_defaultTtl : Z;
  deno_db : list kv_entry
}.

Definition deno_with_db (s : AdapterDenoKv) (db : list kv_entry) : AdapterDenoKv :=
  mkAdapterDenoKv (deno_initialized s) (deno_namespace s) (deno_defaultTtl s) db.

Definition deno_with_initialized (s : AdapterDenoKv) (b : bool) : AdapterDenoKv :=
  mkAdapterDenoKv b (deno_namespace s) (deno_defaultTtl s) (deno_db s).

Definition DenoM := ST AdapterDenoKv.

Definition deno_assertInitialized : DenoM unit :=
  fun s => if deno_initialized s then (inr tt, s) else (inl ENotInitialized, s).

(** [key.split(":")]: the part before the first colon, and
    [parts.slice(1).join(":")], the text after it. *)
Fixpoint split_colon (s : string) : string * string :=
  match s with
  | EmptyString => (EmptyString, EmptyString)
  | String c r =>
      if Ascii.eqb c ":" then (EmptyString, r)
      else let '(p, rest) := split_colon r in (String c p, rest)
  end.

(** [#denoKvKey(key, full)]. *)
Definition denoKvKey (namespace key : string) (full : bool) : list string :=
  let '(prefix, rest) := split_colon key in
  let out := List.filter (fun p => negb (String.eqb p EmptyString)) [prefix; rest] in
  if full then namespace :: out else out.

(** [#parseValue(row)]: a missing row reads as the text ["null"]; a text
    [JSON.parse] refuses is returned as it is. *)
Definition deno_parseValue (row : option string) : json :=
  let text := match row with Some v => v | None => "null" end in
  match JSON_parse text with
  | Some v => v
  | None => match row with Some v => JStr v | None => JNull end
  end.

Definition deno_set (now : Z) (key : string) (value : jsval) (options : SetOptions) :
    DenoM bool :=
  let! _ := deno_assertInitialized in
  fun s =>
    let ttl := ttl_or_undefined options (deno_defaultTtl s) in
    let value := match value with JUndefined => JNull | JValue v => v end in
    let expireIn := match ttl with Some t => Some (now + t * 1000)%Z | None => None end in
    (inr true, deno_with_db s (kv_set (denoKvKey (deno_namespace s) key true)
                                   (stringify value, expireIn) (deno_db s))).

Definition deno_get (key : string) : DenoM json :=
  let! _ := deno_assertInitialized in
  st_gets (fun s => deno_parseValue (kv_get (denoKvKey (deno_namespace s) key true) (deno_db s))).

Definition deno_exists (key : string) : DenoM bool :=
  let! _ := deno_assertInitialized in
  let! v := deno_get key in
  st_ret (match v with JNull => false | _ => true end).

Definition deno_delete (key : string) : DenoM bool :=
  let! _ := deno_assertInitialized in
  let! _ := st_modify (fun s => deno_with_db s
                                  (kv_delete (denoKvKey (deno_namespace s) key true) (deno_db s))) in
  st_ret true.

(** [keys(pattern)]: listed in key order, not sorted afterwards. *)
Definition deno_keys (pattern : string) : DenoM (list string) :=
  let! _ := deno_assertInitialized in
  let parts := denoKvKey EmptyString pattern false in
  let prefix := head parts in
  let search := head (tail parts) in
  match glob_regex pattern with
  | None => st_throw EUnmodelled
  | Some re =>
      let! s := st_gets id in
      let listPrefix :=
        List.filter (fun p => negb (String.eqb p EmptyString))
          (deno_namespace s ::
           match prefix with
           | Some p => if String.eqb p "*" then [] else [p]
           | None => []
           end) in
      let keys := map (fun k => String.concat ":" (tail k))
                      (kv_list listPrefix (deno_db s)) in
      st_ret (List.filter (fun key => bool_decide (prefix = Some "*") ||
                                 bool_decide (search = Some "*") ||
                                 regex_full_match re key) keys)
  end.

Definition deno_clear (pattern : string) : DenoM Z :=
  let! _ := deno_assertInitialized in
  let! keysToDelete := deno_keys pattern in
  let! _ := st_mapM deno_delete keysToDelete in
  st_ret (Z.of_nat (length keysToDelete)).

Definition deno_setMultiple (now : Z) (pairs : list (string * jsval)) (options : SetOptions) :
    DenoM (list bool) :=
  let! _ := deno_assertInitialized in
  st_mapM (fun kv => let! _ := deno_set now kv.1 kv.2 options in st_ret true) pairs.

(** [getMultiple(keys)] through [db.getMany], which accepts at most ten
    keys. *)
Definition deno_getMultiple (keys : list string) : DenoM (list (string * json)) :=
  let! _ := deno_assertInitialized in
  if Nat.ltb 10 (length keys) then st_throw EBackend else
  st_gets (fun s =>
    fold_left (fun result key =>
                 obj_set key (deno_parseValue (kv_get (denoKvKey (deno_namespace s) key true)
                                                      (deno_db s))) result)
              keys []).

Definition deno_txop (now : Z) (op : Operation) : DenoM json :=
  match op with
  | OpSet key value options => let! b := deno_set now key value options in st_ret (JBool b)
  | OpGet key => deno_get key
  | OpDelete key => let! b := deno_delete key in st_ret (JBool b)
  end.

Definition deno_transaction (now : Z) (ops : list Operation) : DenoM (list json) :=
  let! _ := deno_assertInitialized in
  st_mapM (deno_txop now) ops.

(** [expire] and [ttl] are not supported: fixed results. *)
Definition deno_expire (key : string) (ttl : Z) : DenoM bool :=
  let! _ := deno_assertInitialized in st_ret false.

Definition deno_ttl (key : string) : DenoM ttl_result :=
  let! _ := deno_assertInitialized in st_ret TtlNull.

Definition deno_info (s : AdapterDenoKv) : string := "deno-kv".

Definition deno_run (now : Z) (op : kvop) : DenoM kvres :=
  match op with
  | KSet k v o => RBool <$$> deno_set now k v o
  | KGet k => RValue <$$> deno_get k
  | KDelete k => RBool <$$> deno_delete k
  | KExists k => RBool <$$> deno_exists k
  | KKeys p => RKeys <$$> deno_keys p
  | KClear p => RCount <$$> deno_clear p
  | KSetMultiple kvs o => RBools <$$> deno_setMultiple now kvs o
  | KGetMultiple ks => RRecord <$$> deno_getMultiple ks
  | KExpire k t => RBool <$$> deno_expire k t
  | KTtl k => RTtl <$$> deno_ttl k
  | KTransaction ops => RArray <$$> deno_transaction now ops
  | KInfo => st_gets (fun s => RInfo (deno_info s))
  end.

(* ================================================================== *)
(** ** The PostgreSQL adapter ([postgres.ts])

    The table is modelled as its rows [key -> (value, expires_at)], the key
    being the primary key. The database clock [NOW()] and [Date.now()] are
    the same [now]. The [JSONB] column stores the value of the JSON text the
    adapter sends; the order in which [JSONB] keeps object keys is not
    modelled (it does not change the JavaScript value up to key order).
    The queries of a transaction are assumed to run on one connection (a
    [pg.Client]). *)

Definition pg_row : Type := string * (json * option Z).

Record AdapterPostgres : Type := mkAdapterPostgres {
  pg_initialized : bool;
  pg_namespace : string;
  pg_defaultTtl : Z;
  pg_ttlCleanupIntervalSec : Z;
  pg_table_exists : bool;
  pg_rows : list pg_row
}.

Definition pg_with_table (s : AdapterPostgres) (ex : bool) (rows : list pg_row) :
    AdapterPostgres :=
  mkAdapterPostgres (pg_initialized s) (pg_namespace s) (pg_defaultTtl s)
    (pg_ttlCleanupIntervalSec s) ex rows.

Definition pg_with_initialized (s : AdapterPostgres) (b : bool) : AdapterPostgres :=
  mkAdapterPostgres b (pg_namespace s) (pg_defaultTtl s)
    (pg_ttlCleanupIntervalSec s) (pg_table_exists s) (pg_rows s).

Definition PgM := ST AdapterPostgres.

Definition pg_assertInitialized : PgM unit :=
  fun s => if pg_initialized s then (inr tt, s) else (inl ENotInitialized, s).

(** A query fails on a dropped table. *)
Definition pg_query {A} (q : list pg_row -> (kverr + A) * list pg_row) : PgM A :=
  fun s =>
    if pg_table_exists s then
      let '(r, rows) := q (pg_rows s) in (r, pg_with_table s true rows)
    else (inl EBackend, s).

(** [expires_at IS NULL OR expires_at > NOW()]. *)
Definition pg_live (now : Z) (row : pg_row) : bool :=
  match row.2.2 with None => true | Some e => Z.ltb now e end.

(** The [value JSONB NOT NULL] column reading a parameter. *)
Definition pg_jsonb_in (param : option string) : option json :=
  match param with Some text => JSON_parse text | None => None end.

(** [key LIKE pattern], with [\] as the escape character. *)
Fixpoint like_match (p s : string) : bool :=
  match p with
  | EmptyString => match s with EmptyString => true | String _ _ => false end
  | String "%" p' =>
      (fix go (s : string) : bool :=
         like_match p' s || match s with String _ s' => go s' | EmptyString => false end) s
  | String "_" p' => match s with String _ s' => like_match p' s' | EmptyString => false end
  | String "\" (String c p') =>
      match s with String d s' => Ascii.eqb c d && like_match p' s' | EmptyString => false end
  | String c p' =>
      match s with String d s' => Ascii.eqb c d && like_match p' s' | EmptyString => false end
  end.

(** A [LIKE] pattern must not end with the escape character. *)
Fixpoint like_valid (p : string) : bool :=
  match p with
  | EmptyString => true
  | String "\" EmptyString => false
  | String "\" (String _ p') => like_valid p'
  | String _ p' => like_valid p'
  end.

(** [#likePattern(pattern)]. *)
Definition likePattern (pattern : string) : string :=
  replace_all "?" "_" (replace_all "*" "%" pattern).

Definition pg_like_param (namespace pattern : string) : string :=
  if String.eqb pattern "*" then namespace +:+ "%" else namespace +:+ likePattern pattern.

(** [#maybeTTLCleanup]: errors of the sweep are only logged. *)
Definition pg_maybeTTLCleanup (now : Z) (s : AdapterPostgres) : AdapterPostgres :=
  if Z.eqb (pg_ttlCleanupIntervalSec s) 0 || negb (pg_table_exists s) then s
  else pg_with_table s true
         (List.filter (fun row => match row.2.2 with Some e => Z.ltb now e | None => true end)
                 (pg_rows s)).

Definition pg_initialize (now : Z) (s : AdapterPostgres) : AdapterPostgres :=
  pg_maybeTTLCleanup now (pg_with_initialized (pg_with_table s true (pg_rows s)) true).

Definition pg_destroy (hard : bool) (s : AdapterPostgres) : AdapterPostgres :=
  pg_with_initialized (if hard then pg_with_table s false [] else s) false.

(** The upsert of one row; [key VARCHAR(512)] refuses longer keys. *)
Definition pg_upsert (key : string) (param : option string) (expiresAt : option Z)
    (rows : list pg_row) : option (list pg_row) :=
  if Nat.ltb 512 (String.length key) then None else
  match pg_jsonb_in param with
  | Some v => Some (obj_set key (v, expiresAt) rows)
  | None => None
  end.

Definition pg_set (now : Z) (key : string) (value : jsval) (options : SetOptions) :
    PgM bool :=
  let! _ := pg_assertInitialized in
  let! s := st_gets id in
  let k := _withNs (pg_namespace s) key in
  let ttl := ttl_or options (pg_defaultTtl s) in
  let expiresAt := if negb (Z.eqb ttl 0) then Some (now + ttl * 1000)%Z else None in
  let value := match value with JUndefined => JNull | JValue v => v end in
  let! _ := pg_query (fun rows =>
              match pg_upsert k (Some (stringify value)) expiresAt rows with
              | Some rows' => (inr tt, rows')
              | None => (inl EBackend, rows)
              end) in
  st_ret true.

Definition pg_find_live (now : Z) (k : string) (rows : list pg_row) : option json :=
  match List.filter (fun row => String.eqb row.1 k && pg_live now row) rows with
  | row :: _ => Some row.2.1
  | [] => None
  end.

Definition pg_get (now : Z) (key : string) : PgM json :=
  let! _ := pg_assertInitialized in
  let! k := st_gets (fun s => _withNs (pg_namespace s) key) in
  pg_query (fun rows =>
    (inr (match pg_find_live now k rows with Some v => v | None => JNull end), rows)).

(** [DELETE ... WHERE key = $1]: no expiry filter. *)
Definition pg_delete (key : string) : PgM bool :=
  let! _ := pg_assertInitialized in
  let! k := st_gets (fun s => _withNs (pg_namespace s) key) in
  pg_query (fun rows =>
    (inr (map_has k rows), map_delete k rows)).

Definition pg_exists (now : Z) (key : string) : PgM bool :=
  let! _ := pg_assertInitialized in
  let! k := st_gets (fun s => _withNs (pg_namespace s) key) in
  pg_query (fun rows =>
    (inr (match pg_find_live now k rows with Some _ => true | None => false end), rows)).

(** [keys(pattern)]: the [ORDER BY key] of the query is followed by
    [toSorted()], whose result does not depend on the order of its input. *)
Definition pg_keys (now : Z) (pattern : string) : PgM (list string) :=
  let! _ := pg_assertInitialized in
  let! ns := st_gets pg_namespace in
  let param := pg_like_param ns pattern in
  if negb (like_valid param) then st_throw EBackend else
  pg_query (fun rows =>
    (inr (toSorted (map (fun row => _withoutNs ns row.1)
                        (List.filter (fun row => like_match param row.1 && pg_live now row) rows))),
     rows)).

(** [clear(pattern)]: [DELETE ... WHERE key LIKE $1], no expiry filter. *)
Definition pg_clear (pattern : string) : PgM Z :=
  let! _ := pg_assertInitialized in
  let! ns := st_gets pg_namespace in
  let param := pg_like_param ns pattern in
  if negb (like_valid param) then st_throw EBackend else
  pg_query (fun rows =>
    (inr (Z.of_nat (length (List.filter (fun row => like_match param row.1) rows))),
     List.filter (fun row => negb (like_match param row.1)) rows)).

(** [setMultiple(pairs, options)]: one multi-row upsert. An empty [VALUES]
    list is a syntax error; [ON CONFLICT DO UPDATE] refuses to touch one row
    twice; [JSON.stringify(undefined)] sends [NULL] into a [NOT NULL]
    column. *)
Definition pg_setMultiple (now : Z) (pairs : list (string * jsval)) (options : SetOptions) :
    PgM (list bool) :=
  let! _ := pg_assertInitialized in
  let! s := st_gets id in
  let ttl := ttl_or options (pg_defaultTtl s) in
  let expiresAt := if negb (Z.eqb ttl 0) then Some (now + ttl * 1000)%Z else None in
  let params := map (fun kv => (_withNs (pg_namespace s) kv.1, JSON_stringify kv.2)) pairs in
  let! _ := pg_query (fun rows =>
    if bool_decide (params = []) || negb (bool_decide (NoDup params.*1))
    then (inl EBackend, rows)
    else match fold_left (fun acc p => match acc with
                                      | Some rs => pg_upsert p.1 p.2 expiresAt rs
                                      | None => None
                                      end) params (Some rows) with
         | Some rows' => (inr tt, rows')
         | None => (inl EBackend, rows)
         end) in
  st_ret (map (fun _ => true) pairs).

(** [getMultiple(keys)]: [resultMap[key] = found[key] || null]. *)
Definition pg_getMultiple (now : Z) (keys : list string) : PgM (list (string * json)) :=
  let! _ := pg_assertInitialized in
  match keys with
  | [] => st_ret []
  | _ :: _ =>
      let! ns := st_gets pg_namespace in
      let params := map (_withNs ns) keys in
      pg_query (fun rows =>
        let hits := List.filter (fun row => existsb (String.eqb row.1) params && pg_live now row) rows in
        let found := fold_left (fun m row => obj_set (_withoutNs ns row.1) row.2.1 m) hits [] in
        let resultMap :=
          fold_left (fun m key =>
                       obj_set key (match obj_get key found with
                                    | Some v => if truthy v then v else JNull
                                    | None => JNull
                                    end) m) keys [] in
        (inr resultMap, rows))
  end.

(** [expire(key, ttl)]: [UPDATE] of a live row. *)
Definition pg_expire (now : Z) (key : string) (ttl : Z) : PgM bool :=
  let! _ := pg_assertInitialized in
  let! k := st_gets (fun s => _withNs (pg_namespace s) key) in
  pg_query (fun rows =>
    match pg_find_live now k rows with
    | Some v => (inr true, obj_set k (v, Some (now + ttl * 1000)%Z) rows)
    | None => (inr false, rows)
    end).

(** [ttl(key)]: [SELECT expires_at ... WHERE key = $1], no expiry filter. *)
Definition pg_ttl (key : string) : PgM ttl_result :=
  let! _ := pg_assertInitialized in
  let! k := st_gets (fun s => _withNs (pg_namespace s) key) in
  pg_query (fun rows =>
    (inr (match obj_get k rows with
          | None => TtlFalse
          | Some (_, None) => TtlNull
          | Some (_, Some expiresAt) => TtlDate expiresAt
          end), rows)).

Definition pg_txop (now : Z) (op : Operation) : PgM json :=
  match op with
  | OpSet key value options => let! b := pg_set now key value options in st_ret (JBool b)
  | OpGet key => pg_get now key
  | OpDelete key => let! b := pg_delete key in st_ret (JBool b)
  end.

(** [transaction(operations)]: [BEGIN], the operations, [COMMIT]; on an
    error [ROLLBACK] restores the table and the error is rethrown. *)
Definition pg_transaction (now : Z) (ops : list Operation) : PgM (list json) :=
  let! _ := pg_assertInitialized in
  let! _ := pg_query (fun rows => (inr tt, rows)) in
  fun s =>
    match st_mapM (pg_txop now) ops s with
    | (inr rs, s') => (inr rs, s')
    | (inl e, s') => (inl e, pg_with_table s' (pg_table_exists s) (pg_rows s))
    end.

Definition pg_info (s : AdapterPostgres) : string := "postgres".

Definition pg_run (now : Z) (op : kvop) : PgM kvres :=
  match op with
  | KSet k v o => RBool <$$> pg_set now k v o
  | KGet k => RValue <$$> pg_get now k
  | KDelete k => RBool <$$> pg_delete k
  | KExists k => RBool <$$> pg_exists now k
  | KKeys p => RKeys <$$> pg_keys now p
  | KClear p => RCount <$$> pg_clear p
  | KSetMultiple kvs o => RBools <$$> pg_setMultiple now kvs o
  | KGetMultiple ks => RRecord <$$> pg_getMultiple now ks
  | KExpire k t => RBool <$$> pg_expire now k t
  | KTtl k => RTtl <$$> pg_ttl k
  | KTransaction ops => RArray <$$> pg_transaction now ops
  | KInfo => st_gets (fun s => RInfo (pg_info s))
  end.

(* ================================================================== *)
(** ** The Redis adapter ([redis.ts])

    The server is modelled as its keys [key -> (text, expiry instant)]. A
    key whose expiry instant is passed ([now > at]) no longer exists for
    any command. Key patterns of [KEYS] are covered for [*], [?] and [\]
    escapes; a pattern with a [[...]] class is outside the model. *)

Definition redis_entry : Type := string * (string * option Z).

Record AdapterRedis : Type := mkAdapterRedis {
  redis_initialized : bool;
  redis_namespace : string;
  redis_defaultTtl : Z;
  redis_isCluster : bool;
  redis_db : list redis_entry
}.

Definition redis_with_db (s : AdapterRedis) (db : list redis_entry) : AdapterRedis :=
  mkAdapterRedis (redis_initialized s) (redis_namespace s) (redis_defaultTtl s)
    (redis_isCluster s) db.

Definition redis_with_initialized (s : AdapterRedis) (b : bool) : AdapterRedis :=
  mkAdapterRedis b (redis_namespace s) (redis_defaultTtl s) (redis_isCluster s) (redis_db s).

Definition RedisM := ST AdapterRedis.

Definition redis_assertInitialized : RedisM unit :=
  fun s => if redis_initialized s then (inr tt, s) else (inl ENotInitialized, s).

Definition redis_live (now : Z) (e : redis_entry) : bool :=
  match e.2.2 with None => true | Some at_ms => Z.leb now at_ms end.

(** The keys that exist at [now]. *)
Definition redis_keyspace (now : Z) (db : list redis_entry) : list redis_entry :=
  List.filter (redis_live now) db.

(** [stringmatchlen] for patterns without classes. *)
Fixpoint redis_glob_match (p s : string) : bool :=
  match p with
  | EmptyString => match s with EmptyString => true | String _ _ => false end
  | String "*" p' =>
      (fix go (s : string) : bool :=
         redis_glob_match p' s || match s with String _ s' => go s' | EmptyString => false end) s
  | String "?" p' => match s with String _ s' => redis_glob_match p' s' | EmptyString => false end
  | String "\" (String c p') =>
      match s with String d s' => Ascii.eqb c d && redis_glob_match p' s' | EmptyString => false end
  | String c p' =>
      match s with String d s' => Ascii.eqb c d && redis_glob_match p' s' | EmptyString => false end
  end.

Definition redis_glob_modelled (p : string) : bool :=
  negb (existsb (Ascii.eqb "[") (list_ascii_of_string p)).

(** [SET key value [EX ttl]]: without [EX] the key loses its expiry; a
    non-positive [EX] is refused. *)
Definition redis_cmd_set (now : Z) (key value : string) (ex : option Z)
    (db : list redis_entry) : option (list redis_entry) :=
  match ex with
  | None => Some (obj_set key (value, None) (redis_keyspace now db))
  | Some t =>
      if Z.leb t 0 then None
      else Some (obj_set key (value, Some (now + t * 1000)%Z) (redis_keyspace now db))
  end.

Definition redis_cmd_get (now : Z) (key : string) (db : list redis_entry) : option string :=
  fst <$> obj_get key (redis_keyspace now db).

(** [DEL keys...]: the number of existing keys removed. *)
Definition redis_cmd_del (now : Z) (keys : list string) (db : list redis_entry) :
    Z * list redis_entry :=
  let live := redis_keyspace now db in
  (Z.of_nat (length (List.filter (fun e => existsb (String.eqb e.1) keys) live)),
   List.filter (fun e => negb (existsb (String.eqb e.1) keys)) live).

(** [JSON.parse(`${value}`)], the text itself when it is no JSON text. *)
Definition redis_parse (value : string) : json :=
  match JSON_parse value with Some v => v | None => JStr value end.

Definition redis_set (now : Z) (key : string) (value : jsval) (options : SetOptions) :
    RedisM bool :=
  let! _ := redis_assertInitialized in
  let! s := st_gets id in
  let k := _withNs (redis_namespace s) key in
  let ttl := ttl_or_undefined options (redis_defaultTtl s) in
  let value := match value with JUndefined => JNull | JValue v => v end in
  match redis_cmd_set now k (stringify value) ttl (redis_db s) with
  | Some db => let! _ := st_modify (fun s => redis_with_db s db) in st_ret true
  | None => st_throw EBackend
  end.

Definition redis_get (now : Z) (key : string) : RedisM json :=
  let! _ := redis_assertInitialized in
  st_gets (fun s =>
    match redis_cmd_get now (_withNs (redis_namespace s) key) (redis_db s) with
    | None => JNull
    | Some value => redis_parse value
    end).

Definition redis_delete (now : Z) (key : string) : RedisM bool :=
  let! _ := redis_assertInitialized in
  fun s =>
    let '(n, db) := redis_cmd_del now [_withNs (redis_namespace s) key] (redis_db s) in
    (inr (Z.ltb 0 n), redis_with_db s db).

Definition redis_exists (now : Z) (key : string) : RedisM bool :=
  let! _ := redis_assertInitialized in
  st_gets (fun s => map_has (_withNs (redis_namespace s) key) (redis_keyspace now (redis_db s))).

Definition redis_keys (now : Z) (pattern : string) : RedisM (list string) :=
  let! _ := redis_assertInitialized in
  let! s := st_gets id in
  if redis_isCluster s then st_throw EClusterMode else
  let p := redis_namespace s +:+ pattern in
  if negb (redis_glob_modelled p) then st_throw EUnmodelled else
  st_ret (toSorted (map (fun e => _withoutNs (redis_namespace s) e.1)
                        (List.filter (fun e => redis_glob_match p e.1)
                                     (redis_keyspace now (redis_db s))))).

Definition redis_clear (now : Z) (pattern : string) : RedisM Z :=
  let! _ := redis_assertInitialized in
  let! s := st_gets id in
  if redis_isCluster s then st_throw EClusterMode else
  let! keys := redis_keys now pattern in
  match keys with
  | [] => st_ret 0%Z
  | _ :: _ =>
      fun s =>
        let '(n, db) := redis_cmd_del now (map (_withNs (redis_namespace s)) keys) (redis_db s) in
        (inr n, redis_with_db s db)
  end.

(** [setMultiple(pairs, options)] in one [MULTI]: a [SET] the server or the
    client refuses inside the batch ([undefined] value, non-positive [EX])
    is outside the model. *)
Definition redis_setMultiple (now : Z) (pairs : list (string * jsval)) (options : SetOptions) :
    RedisM (list bool) :=
  let! _ := redis_assertInitialized in
  let! s := st_gets id in
  let ttl := ttl_or_undefined options (redis_defaultTtl s) in
  let cmds := map (fun kv => (_withNs (redis_namespace s) kv.1, JSON_stringify kv.2)) pairs in
  match fold_left (fun acc c => match acc, c.2 with
                                | Some db, Some text => redis_cmd_set now c.1 text ttl db
                                | _, _ => None
                                end) cmds (Some (redis_db s)) with
  | Some db => let! _ := st_modify (fun s => redis_with_db s db) in st_ret (map (fun _ => true) pairs)
  | None => st_throw EUnmodelled
  end.

(** [getMultiple(keys)] through [MGET], which needs at least one key. *)
Definition redis_getMultiple (now : Z) (keys : list string) : RedisM (list (string * json)) :=
  let! _ := redis_assertInitialized in
  match keys with
  | [] => st_throw EBackend
  | _ :: _ =>
      st_gets (fun s =>
        fold_left (fun result key =>
                     let k := _withNs (redis_namespace s) key in
                     obj_set (_withoutNs (redis_namespace s) k)
                             (match redis_cmd_get now k (redis_db s) with
                              | Some value => redis_parse value
                              | None => JNull
                              end) result) keys [])
  end.

(** [EXPIRE key ttl]: a non-positive [ttl] deletes the key. *)
Definition redis_expire (now : Z) (key : string) (ttl : Z) : RedisM bool :=
  let! _ := redis_assertInitialized in
  fun s =>
    let k := _withNs (redis_namespace s) key in
    let live := redis_keyspace now (redis_db s) in
    match obj_get k live with
    | None => (inr false, redis_with_db s live)
    | Some (v, _) =>
        if Z.leb ttl 0 then (inr true, redis_with_db s (map_delete k live))
        else (inr true, redis_with_db s (obj_set k (v, Some (now + ttl * 1000)%Z) live))
    end.

(** [TTL key]: [-2], [-1], or the remaining seconds rounded to the nearest
    second; the adapter adds them to [Date.now()]. *)
Definition redis_ttl (now : Z) (key : string) : RedisM ttl_result :=
  let! _ := redis_assertInitialized in
  st_gets (fun s =>
    match obj_get (_withNs (redis_namespace s) key) (redis_keyspace now (redis_db s)) with
    | None => TtlFalse
    | Some (_, None) => TtlNull
    | Some (_, Some at_ms) => TtlDate (now + ((at_ms - now + 500) / 1000) * 1000)%Z
    end).

(** [transaction(operations)] in one [MULTI]: a [set] carries no [EX], so
    it clears any expiry; replies are converted back afterwards. *)
Definition redis_transaction (now : Z) (ops : list Operation) : RedisM (list json) :=
  let! _ := redis_assertInitialized in
  fun s =>
    let ns := redis_namespace s in
    let step (acc : option (list json * list redis_entry)) (op : Operation) :=
      match acc with
      | None => None
      | Some (res, db) =>
          match op with
          | OpSet key value _ =>
              match JSON_stringify value with
              | Some text =>
                  (fun db' => (res ++ [JBool true], db')) <$> redis_cmd_set now (_withNs ns key) text None db
              | None => None
              end
          | OpGet key =>
              Some (res ++ [match redis_cmd_get now (_withNs ns key) db with
                            | Some value => redis_parse value
                            | None => JNull
                            end], db)
          | OpDelete key =>
              let '(n, db') := redis_cmd_del now [_withNs ns key] db in
              Some (res ++ [JBool (Z.ltb 0 n)], db')
          end
      end in
    match fold_left step ops (Some ([], redis_db s)) with
    | Some (res, db) => (inr res, redis_with_db s db)
    | None => (inl EUnmodelled, s)
    end.

Definition redis_info (s : AdapterRedis) : string := "redis".

Definition redis_run (now : Z) (op : kvop) : RedisM kvres :=
  match op with
  | KSet k v o => RBool <$$> redis_set now k v o
  | KGet k => RValue <$$> redis_get now k
  | KDelete k => RBool <$$> redis_delete now k
  | KExists k => RBool <$$> redis_exists now k
  | KKeys p => RKeys <$$> redis_keys now p
  | KClear p => RCount <$$> redis_clear now p
  | KSetMultiple kvs o => RBools <$$> redis_setMultiple now kvs o
  | KGetMultiple ks => RRecord <$$> redis_getMultiple now ks
  | KExpire k t => RBool <$$> redis_expire now k t
  | KTtl k => RTtl <$$> redis_ttl now k
  | KTransaction ops => RArray <$$> redis_transaction now ops
  | KInfo => st_gets (fun s => RInfo (redis_info s))
  end.

(* ================================================================== *)
(** ** The adapter interface *)

(** [AdapterAbstract]: what every adapter provides. *)
Class Adapter (S : Type) := {
  adapter_type : string;
  adapter_initialized : S -> bool;
  adapter_run : Z -> kvop -> ST S kvres
}.

#[export] Instance Adapter_memory : Adapter AdapterMemory :=
  { adapter_type := "memory"; adapter_initialized := mem_initialized; adapter_run := mem_run }.
#[export] Instance Adapter_postgres : Adapter AdapterPostgres :=
  { adapter_type := "postgres"; adapter_initialized := pg_initialized; adapter_run := pg_run }.
#[export] Instance Adapter_redis : Adapter AdapterRedis :=
  { adapter_type := "redis"; adapter_initialized := redis_initialized; adapter_run := redis_run }.
#[export] Instance Adapter_denokv : Adapter AdapterDenoKv :=
  { adapter_type := "deno-kv"; adapter_initialized := deno_initialized; adapter_run := deno_run }.


(* ================================================================== *)
(** ** Runs of the in-memory adapter *)

(** No orphaned expiry: every key of [#expirations] is a key of [#store]. *)
Definition mem_inv (s : AdapterMemory) : Prop :=
  forall k, map_has k (mem_expirations s) = true -> map_has k (mem_store s) = true.

(** One step of an in-memory adapter: a public operation, a tick of the
    cleanup timer, [initialize()] or [destroy()]. *)
Inductive mem_step : AdapterMemory -> AdapterMemory -> Prop :=
| mem_step_run now op s : mem_step s (snd (mem_run now op s))
| mem_step_cleanup now s : mem_step s (mem_maybeTTLCleanup now s)
| mem_step_initialize now s : mem_step s (mem_initialize now s)
| mem_step_destroy s : mem_step s (mem_destroy s).

(** The states reachable from [s0]. *)
Inductive mem_reachable (s0 : AdapterMemory) : AdapterMemory -> Prop :=
| mem_reach_here : mem_reachable s0 s0
| mem_reach_step s s' : mem_reachable s0 s -> mem_step s s' -> mem_reachable s0 s'.

(** A computation that keeps [mem_inv], whatever it returns or throws. *)
Definition mem_pres {A} (m : MemM A) : Prop :=
  forall s, mem_inv s -> mem_inv (snd (m s)).

(** No character of [q] is one of [cs]. *)
Definition no_char_of (cs : list ascii) (q : string) : bool :=
  forallb (fun c => negb (existsb (Ascii.eqb c) cs)) (list_ascii_of_string q).

(* ================================================================== *)
(** * Proofs *)

(** ** The JSON codec: [JSON.parse] reads back what [JSON.stringify] writes *)

Lemma sapp_cons (x : ascii) (a b : string) : String x a +:+ b = String x (a +:+ b).
Proof. reflexivity. Qed.
Lemma sapp_nil_l (a : string) : EmptyString +:+ a = a.
Proof. reflexivity. Qed.
Lemma sapp_assoc (a b c : string) : (a +:+ b) +:+ c = a +:+ (b +:+ c).
Proof. induction a as [|x a IH]; [done|]. rewrite !sapp_cons, IH. done. Qed.
Lemma sapp_nil_r (a : string) : a +:+ EmptyString = a.
Proof. induction a as [|x a IH]; [done|]. rewrite sapp_cons, IH. done. Qed.
Lemma parse_escape_char (c : ascii) (t : string) :
  parse_strbody (escape_char c +:+ t) = cons_fst c (parse_strbody t).
Proof. destruct c as [[] [] [] [] [] [] [] []]; reflexivity. Qed.
Lemma parse_strbody_escape (s t : string) :
  parse_strbody (escape s +:+ String quote t) = Some (s, t).
Proof.
  induction s as [|c s IH]; [reflexivity|].
  simpl escape. rewrite sapp_assoc, parse_escape_char, IH. reflexivity.
Qed.


Lemma read_digits_uint (d : Decimal.uint) (t : string) :
  no_digit_start t = true ->
  read_digits (uint_to_string d +:+ t) = (d, t).
Proof.
  intros Ht. induction d; simpl uint_to_string; rewrite ?sapp_cons;
    try (simpl; rewrite IHd; reflexivity).
  rewrite sapp_nil_l. destruct t as [|c t]; [reflexivity|].
  simpl in Ht |- *. apply negb_true_iff in Ht. rewrite Ht. reflexivity.
Qed.

Lemma nzhead_not_D0 (u u' : Decimal.uint) : Decimal.nzhead u <> Decimal.D0 u'.
Proof. induction u; simpl; congruence. Qed.

Lemma to_uint_pos_shape (p : positive) :
  N.to_uint (Npos p) <> Decimal.Nil /\
  forall u, N.to_uint (Npos p) <> Decimal.D0 u.
Proof.
  pose proof (DecimalN.Unsigned.of_to (Npos p)) as Hof.
  pose proof (DecimalN.Unsigned.to_of (N.to_uint (Npos p))) as Hto.
  rewrite Hof in Hto.
  split.
  - intros E. rewrite E in Hof. discriminate.
  - intros u E. rewrite E in Hto. rewrite DecimalFacts.unorm_D0 in Hto.
    unfold Decimal.unorm in Hto.
    destruct (Decimal.nzhead u) eqn:Hn; try congruence.
    + assert (u = Decimal.Nil) as -> by congruence.
      rewrite E in Hof. discriminate.
    + symmetry in Hto. exfalso. eapply nzhead_not_D0; eassumption.
Qed.

Lemma parse_uint_norm (u : Decimal.uint) (t : string) :
  no_digit_start t = true ->
  u <> Decimal.Nil -> (forall u', u <> Decimal.D0 u') ->
  parse_uint (uint_to_string u +:+ t) = Some (N.of_uint u, t).
Proof.
  intros Ht H1 H2.
  destruct u as [|u|u|u|u|u|u|u|u|u|u].
  1: contradiction.
  1: exfalso; eapply H2; reflexivity.
  all: simpl; rewrite (read_digits_uint u t Ht); reflexivity.
Qed.

Lemma parse_uint_pos (p : positive) (t : string) :
  no_digit_start t = true ->
  parse_uint (uint_to_string (N.to_uint (Npos p)) +:+ t) = Some (Npos p, t).
Proof.
  intros Ht. destruct (to_uint_pos_shape p) as [H1 H2].
  rewrite parse_uint_norm by assumption.
  rewrite DecimalN.Unsigned.of_to. reflexivity.
Qed.

Lemma uint_head (p : positive) (t : string) :
  exists c r, uint_to_string (N.to_uint (Npos p)) +:+ t = String c r /\
    is_ws c = false /\ char_is c 93 = false /\ char_is c 125 = false /\
    char_is c 110 = false /\ char_is c 116 = false /\ char_is c 102 = false /\
    char_is c 34 = false /\ char_is c 91 = false /\ char_is c 123 = false /\
    char_is c 45 = false.
Proof.
  destruct (to_uint_pos_shape p) as [H1 _].
  destruct (N.to_uint (Npos p)); [contradiction|..];
    simpl; eexists _, _; (split; [reflexivity|repeat split]).
Qed.

Lemma skip_ws_nonws (c : ascii) (r : string) :
  is_ws c = false -> skip_ws (String c r) = String c r.
Proof. intros H. simpl. rewrite H. reflexivity. Qed.

Lemma stringify_head (v : json) (t : string) :
  exists c r, stringify v +:+ t = String c r /\ is_ws c = false /\
    char_is c 93 = false /\ char_is c 125 = false.
Proof.
  destruct v as [|[]|[|p|p]|s|xs|kvs]; simpl stringify;
    try (eexists _, _; split; [reflexivity|repeat split]; fail).
  destruct (uint_head p t) as (c & r & E & H1 & H2 & H3 & _). exists c, r. split; [exact E|auto].
Qed.

Lemma parse_elems_S (f : nat) (s : string) :
  parse_elems (S f) s =
  match parse_value f s with
  | Some (v, r) =>
      match skip_ws r with
      | String c r' =>
          if char_is c 44 then
            match parse_elems f r' with
            | Some (vs, r'') => Some (v :: vs, r'')
            | None => None
            end
          else if char_is c 93 then Some ([v], r')
          else None
      | EmptyString => None
      end
  | None => None
  end.
Proof. reflexivity. Qed.

Lemma parse_elems_ok (xs : list json) :
  Forall parses_back xs -> forallb json_wf xs = true -> xs <> [] ->
  forall f t, sum_list_with (fun x => S (jsize x)) xs <= f ->
  parse_elems f ((String.concat "," (map stringify xs) +:+ "]") +:+ t) = Some (xs, t).
Proof.
  induction 1 as [|x xs Hx Hxs IH]; [congruence|].
  intros Hwf _ f t Hf. simpl in Hwf. apply andb_true_iff in Hwf as [Hw1 Hw2].
  simpl in Hf. destruct f as [|f]; [lia|].
  rewrite parse_elems_S.
  destruct xs as [|y ys].
  - simpl String.concat. rewrite sapp_assoc.
    rewrite (Hx Hw1 f ("]" +:+ t)) by (reflexivity || lia). reflexivity.
  - change (String.concat "," (map stringify (x :: y :: ys)))
      with (stringify x +:+ ("," +:+ String.concat "," (map stringify (y :: ys)))).
    rewrite !sapp_assoc.
    rewrite (Hx Hw1 f ("," +:+ (String.concat "," (map stringify (y :: ys)) +:+ ("]" +:+ t))))
      by (reflexivity || lia).
    change (skip_ws ("," +:+ ?r)) with (String "," r).
    cbv iota beta. change (char_is "," 44) with true. cbv iota beta.
    rewrite <- sapp_assoc, IH by (done || simpl in Hf |- *; lia). reflexivity.
Qed.


Lemma parse_members_S (f : nat) (s : string) :
  parse_members (S f) s =
      match skip_ws s with
      | String c r =>
          if char_is c 34 then
            match parse_strbody r with
            | Some (k, r1) =>
                match skip_ws r1 with
                | String c1 r2 =>
                    if char_is c1 58 then
                      match parse_value f r2 with
                      | Some (v, r3) =>
                          match skip_ws r3 with
                          | String c3 r4 =>
                              if char_is c3 44 then
                                match parse_members f r4 with
                                | Some (kvs, r5) => Some ((k, v) :: kvs, r5)
                                | None => None
                                end
                              else if char_is c3 125 then Some ([(k, v)], r4)
                              else None
                          | EmptyString => None
                          end
                      | None => None
                      end
                    else None
                | EmptyString => None
                end
            | None => None
            end
          else None
      | EmptyString => None
      end.
Proof. reflexivity. Qed.

Lemma member_app (k : string) (v : json) (r : string) :
  member (k, v) +:+ r = String quote (escape k +:+ String quote (String ":" (stringify v +:+ r))).
Proof.
  unfold member, stringify_str. simpl fst; simpl snd.
  rewrite !sapp_cons, !sapp_assoc. reflexivity.
Qed.

Lemma parse_members_ok (kvs : list (string * json)) :
  Forall (fun kv => parses_back kv.2) kvs ->
  forallb (fun kv => json_wf kv.2) kvs = true -> kvs <> [] ->
  forall f t, sum_list_with (fun kv => S (jsize kv.2)) kvs <= f ->
  parse_members f ((String.concat "," (map member kvs) +:+ "}") +:+ t) = Some (kvs, t).
Proof.
  induction 1 as [|[k x] kvs Hx Hxs IH]; [congruence|].
  intros Hwf _ f t Hf. simpl in Hwf, Hx. apply andb_true_iff in Hwf as [Hw1 Hw2].
  simpl in Hf. destruct f as [|f]; [lia|].
  rewrite parse_members_S.
  destruct kvs as [|y ys].
  - simpl String.concat. rewrite sapp_assoc, member_app.
    rewrite skip_ws_nonws by reflexivity.
    change (char_is quote 34) with true. cbv iota beta.
    rewrite parse_strbody_escape.
    rewrite skip_ws_nonws by reflexivity.
    change (char_is ":" 58) with true. cbv iota beta.
    rewrite (Hx Hw1 f ("}" +:+ t)) by (reflexivity || simpl; lia). reflexivity.
  - change (String.concat "," (map member ((k, x) :: y :: ys)))
      with (member (k, x) +:+ ("," +:+ String.concat "," (map member (y :: ys)))).
    rewrite !sapp_assoc, member_app.
    rewrite skip_ws_nonws by reflexivity.
    change (char_is quote 34) with true. cbv iota beta.
    rewrite parse_strbody_escape.
    rewrite skip_ws_nonws by reflexivity.
    change (char_is ":" 58) with true. cbv iota beta.
    rewrite (Hx Hw1 f ("," +:+ (String.concat "," (map member (y :: ys)) +:+ ("}" +:+ t))))
      by (reflexivity || simpl; lia).
    change (skip_ws ("," +:+ ?r)) with (String "," r).
    cbv iota beta. change (char_is "," 44) with true. cbv iota beta.
    rewrite <- sapp_assoc, IH by (done || simpl in Hf |- *; lia). reflexivity.
Qed.

Lemma obj_set_fresh {A} (k : string) (v : A) (o : list (string * A)) :
  k ∉ o.*1 -> obj_set k v o = o ++ [(k, v)].
Proof.
  induction o as [|[k' v'] o IH]; [done|]. simpl. intros Hk.
  destruct (String.eqb_spec k k') as [->|Hne].
  - exfalso. apply Hk. left.
  - rewrite IH; [done|]. intros Hin. apply Hk. right. exact Hin.
Qed.

Lemma fold_obj_set {A} (kvs acc : list (string * A)) :
  NoDup (acc ++ kvs).*1 ->
  fold_left (fun o kv => obj_set kv.1 kv.2 o) kvs acc = acc ++ kvs.
Proof.
  revert acc. induction kvs as [|[k v] kvs IH]; intros acc Hnd.
  - by rewrite app_nil_r.
  - simpl. rewrite obj_set_fresh.
    + rewrite IH; [by rewrite <- app_assoc|]. by rewrite <- app_assoc.
    + rewrite fmap_app in Hnd. simpl in Hnd.
      apply NoDup_app in Hnd as (_ & Hd & _).
      intros Hin. apply (Hd k Hin). left.
Qed.

Lemma parse_stringify (v : json) : parses_back v.
Proof.
  induction v as [| b | n | s | xs IH | kvs IH] using json_ind';
    intros Hwf fuel t Hf Ht; destruct fuel as [|f]; try (simpl in Hf; lia).
  - reflexivity.
  - destruct b; reflexivity.
  - destruct n as [|p|p].
    + reflexivity.
    + destruct (uint_head p t)
        as (c & r & E & H1 & _ & _ & H4 & H5 & H6 & H7 & H8 & H9 & H10).
      change (stringify (JNum (Zpos p))) with (uint_to_string (N.to_uint (Npos p))).
      rewrite E. cbn [parse_value]. rewrite skip_ws_nonws by assumption.
      rewrite H4, H5, H6, H7, H8, H9, H10. rewrite <- E, parse_uint_pos by assumption.
      reflexivity.
    + change (stringify (JNum (Zneg p)) +:+ t)
        with (String "-" (uint_to_string (N.to_uint (Npos p)) +:+ t)).
      cbn [parse_value]. rewrite skip_ws_nonws by reflexivity.
      change (char_is "-" 45) with true. cbv iota beta.
      rewrite parse_uint_pos by assumption. reflexivity.
  - change (stringify (JStr s) +:+ t) with (String quote ((escape s +:+ str1 quote) +:+ t)).
    cbn [parse_value]. rewrite skip_ws_nonws by reflexivity.
    change (char_is quote 34) with true. cbv iota beta.
    rewrite sapp_assoc. change (str1 quote +:+ t) with (String quote t).
    rewrite parse_strbody_escape. reflexivity.
  - simpl in Hwf. destruct xs as [|x xs]; [reflexivity|].
    change (stringify (JArr (x :: xs)) +:+ t)
      with (String "[" ((String.concat "," (map stringify (x :: xs)) +:+ "]") +:+ t)).
    cbn [parse_value]. rewrite skip_ws_nonws by reflexivity.
    change (char_is "[" 91) with true. cbv iota beta.
    destruct (stringify_head x (match xs with
                                | [] => EmptyString
                                | _ :: _ => "," +:+ String.concat "," (map stringify xs)
                                end +:+ ("]" +:+ t)))
      as (c & r & E & H1 & H2 & _).
    assert (Hr : (String.concat "," (map stringify (x :: xs)) +:+ "]") +:+ t = String c r).
    { rewrite <- E. destruct xs; simpl String.concat; rewrite !sapp_assoc; reflexivity. }
    rewrite Hr, skip_ws_nonws by assumption. rewrite H2. rewrite <- Hr.
    rewrite parse_elems_ok by (done || simpl in Hf |- *; lia). reflexivity.
  - simpl in Hwf. apply andb_true_iff in Hwf as [Hnd Hwf].
    apply bool_decide_eq_true in Hnd.
    destruct kvs as [|[k x] kvs]; [reflexivity|].
    change (stringify (JObj ((k, x) :: kvs)) +:+ t)
      with (String "{" ((String.concat "," (map member ((k, x) :: kvs)) +:+ "}") +:+ t)).
    cbn [parse_value]. rewrite skip_ws_nonws by reflexivity.
    change (char_is "{" 123) with true. cbv iota beta.
    assert (Hr : exists r, (String.concat "," (map member ((k, x) :: kvs)) +:+ "}") +:+ t
                           = String quote r).
    { destruct kvs; simpl String.concat; rewrite !sapp_assoc, member_app; eexists; reflexivity. }
    destruct Hr as [r Hr].
    rewrite Hr, skip_ws_nonws by reflexivity.
    change (char_is quote 125) with false. cbv iota beta. rewrite <- Hr.
    rewrite parse_members_ok by (done || simpl in Hf |- *; lia).
    rewrite (fold_obj_set _ []) by exact Hnd. reflexivity.
Qed.

Lemma length_sapp (a b : string) : String.length (a +:+ b) = String.length a + String.length b.
Proof. induction a as [|c a IH]; [done|]. rewrite sapp_cons. simpl. lia. Qed.

Lemma length_concat_comma (l : list string) :
  l <> [] -> S (String.length (String.concat "," l)) = sum_list_with (fun s => S (String.length s)) l.
Proof.
  induction l as [|a l IH]; [congruence|]. intros _.
  destruct l as [|b l].
  - simpl. lia.
  - change (String.concat "," (a :: b :: l)) with (a +:+ ("," +:+ String.concat "," (b :: l))).
    rewrite !length_sapp. simpl String.length at 2.
    transitivity (S (String.length a) + sum_list_with (fun s => S (String.length s)) (b :: l));
      [|reflexivity].
    rewrite <- IH by congruence. simpl String.length. lia.
Qed.

Lemma sum_list_with_map {A B} (f : B -> nat) (g : A -> B) (l : list A) :
  sum_list_with f (map g l) = sum_list_with (fun x => f (g x)) l.
Proof. induction l as [|a l IH]; simpl; [done|]. by rewrite IH. Qed.

Lemma sum_list_with_mono {A} (f g : A -> nat) (l : list A) :
  Forall (fun x => f x <= g x) l -> sum_list_with f l <= sum_list_with g l.
Proof. induction 1; simpl; lia. Qed.

Lemma jsize_le_length (v : json) : jsize v <= String.length (stringify v).
Proof.
  induction v as [| b | n | s | xs IH | kvs IH] using json_ind'.
  - simpl; lia.
  - destruct b; simpl; lia.
  - destruct n as [|p|p]; simpl jsize; [simpl; lia| |].
    + destruct (uint_head p EmptyString) as (c & r & E & _).
      rewrite sapp_nil_r in E. change (stringify (JNum (Zpos p))) with
        (uint_to_string (N.to_uint (Npos p))). rewrite E. simpl. lia.
    + simpl. lia.
  - simpl. lia.
  - destruct xs as [|x xs]; [simpl; lia|].
    change (stringify (JArr (x :: xs)))
      with (String "[" (String.concat "," (map stringify (x :: xs)) +:+ "]")).
    change (jsize (JArr (x :: xs))) with (S (sum_list_with (fun y => S (jsize y)) (x :: xs))).
    change (String.length (String "[" ?X)) with (S (String.length X)).
    rewrite length_sapp. change (String.length "]") with 1.
    pose proof (length_concat_comma (map stringify (x :: xs)) ltac:(done)) as Hc.
    rewrite sum_list_with_map in Hc.
    assert (Hm : sum_list_with (fun y => S (jsize y)) (x :: xs)
                 <= sum_list_with (fun y => S (String.length (stringify y))) (x :: xs)).
    { apply sum_list_with_mono. eapply Forall_impl; [exact IH|]. simpl. lia. }
    lia.
  - destruct kvs as [|kv kvs]; [simpl; lia|].
    change (stringify (JObj (kv :: kvs)))
      with (String "{" (String.concat "," (map member (kv :: kvs)) +:+ "}")).
    change (jsize (JObj (kv :: kvs))) with (S (sum_list_with (fun y => S (jsize y.2)) (kv :: kvs))).
    change (String.length (String "{" ?X)) with (S (String.length X)).
    rewrite length_sapp. change (String.length "}") with 1.
    pose proof (length_concat_comma (map member (kv :: kvs)) ltac:(done)) as Hc.
    rewrite sum_list_with_map in Hc.
    assert (Hm : sum_list_with (fun y => S (jsize y.2)) (kv :: kvs)
                 <= sum_list_with (fun y => S (String.length (member y))) (kv :: kvs)).
    { apply sum_list_with_mono. eapply Forall_impl; [exact IH|].
      intros [k y] Hy. simpl in Hy. unfold member, stringify_str. simpl fst; simpl snd.
      rewrite !length_sapp. simpl. rewrite length_sapp. simpl. lia. }
    lia.
Qed.

Lemma JSON_parse_stringify (v : json) :
  json_wf v = true -> JSON_parse (stringify v) = Some v.
Proof.
  intros Hwf. unfold JSON_parse.
  pose proof (parse_stringify v Hwf (S (String.length (stringify v))) EmptyString) as H.
  rewrite sapp_nil_r in H. rewrite H; [reflexivity| |reflexivity].
  pose proof (jsize_le_length v). lia.
Qed.

(* ================================================================== *)
(** ** The adapters *)

Lemma obj_get_obj_set_eq {A} (k : string) (v : A) (o : list (string * A)) :
  obj_get k (obj_set k v o) = Some v.
Proof.
  induction o as [|[k' v'] o IH]; simpl; [rewrite String.eqb_refl; reflexivity|].
  destruct (String.eqb k k') eqn:E; simpl; [rewrite String.eqb_refl|rewrite E]; auto.
Qed.

Lemma mem_set_state (s : AdapterMemory) (now : Z) (key : string) (value : jsval)
    (options : SetOptions) :
  mem_initialized s = true ->
  mem_set now key value options s =
    (inr true,
     let k := _withNs (mem_namespace s) key in
     let ttl := ttl_or options (mem_defaultTtl s) in
     mem_with_maps s (obj_set k (JSON_stringify value) (mem_store s))
       (if negb (Z.eqb ttl 0) then obj_set k (now + ttl * 1000)%Z (mem_expirations s)
        else map_delete k (mem_expirations s))).
Proof. intros Hi. unfold mem_set, st_bind, mem_assertInitialized. rewrite Hi. reflexivity. Qed.

Lemma mem_isExpired_live (s : AdapterMemory) (now : Z) (k : string) :
  (forall e, obj_get k (mem_expirations s) = Some e -> (now <= e)%Z) ->
  mem_isExpired now k s = (inr false, s).
Proof.
  intros H. unfold mem_isExpired. destruct (obj_get k _) as [e|] eqn:E; [|reflexivity].
  specialize (H e eq_refl). replace (Z.gtb now e) with false by lia. reflexivity.
Qed.

Lemma mem_get_live (s : AdapterMemory) (now : Z) (key : string) :
  mem_initialized s = true ->
  (forall e, obj_get (_withNs (mem_namespace s) key) (mem_expirations s) = Some e ->
             (now <= e)%Z) ->
  mem_get now key s =
    match obj_get (_withNs (mem_namespace s) key) (mem_store s) with
    | None | Some None => (inr JNull, s)
    | Some (Some value) =>
        match JSON_parse value with Some v => (inr v, s) | None => (inl ESyntax, s) end
    end.
Proof.
  intros Hi Hl. unfold mem_get, st_bind at 1, mem_assertInitialized. rewrite Hi.
  unfold st_bind at 1, st_gets. unfold st_bind at 1. rewrite mem_isExpired_live by exact Hl.
  reflexivity.
Qed.


Lemma map_has_obj_set {A} (k k' : string) (v : A) (m : list (string * A)) :
  map_has k (obj_set k' v m) = String.eqb k k' || map_has k m.
Proof.
  induction m as [|[k'' v''] m IH]; simpl; [now rewrite orb_false_r|].
  destruct (String.eqb_spec k' k'') as [->|Hne]; simpl.
  - destruct (String.eqb k k''); reflexivity.
  - rewrite IH. destruct (String.eqb k k''), (String.eqb k k'); reflexivity.
Qed.

Lemma map_has_map_delete {A} (k k' : string) (m : list (string * A)) :
  map_has k (map_delete k' m) = negb (String.eqb k k') && map_has k m.
Proof.
  unfold map_delete. induction m as [|[k'' v''] m IH]; simpl; [now rewrite andb_false_r|].
  destruct (String.eqb_spec k'' k') as [->|Hne]; simpl.
  - rewrite IH. destruct (String.eqb k k'); reflexivity.
  - rewrite IH. destruct (String.eqb_spec k k'') as [->|]; simpl.
    + apply String.eqb_neq in Hne. rewrite Hne. reflexivity.
    + reflexivity.
Qed.

Lemma mem_pres_ret {A} (a : A) : mem_pres (st_ret a).
Proof. intros s H. exact H. Qed.

Lemma mem_pres_throw {A} (e : kverr) : mem_pres (A:=A) (st_throw e).
Proof. intros s H. exact H. Qed.

Lemma mem_pres_gets {A} (f : AdapterMemory -> A) : mem_pres (st_gets f).
Proof. intros s H. exact H. Qed.

Lemma mem_pres_bind {A B} (m : MemM A) (k : A -> MemM B) :
  mem_pres m -> (forall a, mem_pres (k a)) -> mem_pres (st_bind m k).
Proof.
  intros Hm Hk s H. unfold st_bind. specialize (Hm s H).
  destruct (m s) as [[e|a] s']; [exact Hm|apply Hk, Hm].
Qed.

Lemma mem_pres_map {A B} (f : A -> B) (m : MemM A) :
  mem_pres m -> mem_pres (f <$$> m).
Proof. intros Hm. apply mem_pres_bind; [exact Hm|intros; apply mem_pres_ret]. Qed.

Lemma mem_pres_mapM {A B} (f : A -> MemM B) (l : list A) :
  (forall x, mem_pres (f x)) -> mem_pres (st_mapM f l).
Proof.
  intros Hf. induction l as [|x l IH]; simpl; [apply mem_pres_ret|].
  apply mem_pres_bind; [apply Hf|intros; apply mem_pres_bind; [exact IH|intros; apply mem_pres_ret]].
Qed.

Lemma mem_pres_filter {A} (f : A -> MemM bool) (l : list A) :
  (forall x, mem_pres (f x)) -> mem_pres (st_filter f l).
Proof.
  intros Hf. induction l as [|x l IH]; simpl; [apply mem_pres_ret|].
  apply mem_pres_bind; [apply Hf|intros; apply mem_pres_bind; [exact IH|intros; apply mem_pres_ret]].
Qed.

Lemma mem_pres_assert : mem_pres mem_assertInitialized.
Proof. intros s H. unfold mem_assertInitialized. destruct (mem_initialized s); exact H. Qed.

Lemma mem_inv_drop (k : string) (s : AdapterMemory) : mem_inv s -> mem_inv (mem_drop k s).
Proof.
  intros H k'. unfold mem_drop, mem_with_maps; simpl.
  rewrite !map_has_map_delete. intros [Hn Hh]%andb_prop. rewrite Hn. simpl. apply H, Hh.
Qed.

Lemma mem_inv_with_initialized (s : AdapterMemory) (b : bool) :
  mem_inv s -> mem_inv (mem_with_initialized s b).
Proof. intros H. exact H. Qed.

Lemma mem_inv_cleanup (now : Z) (s : AdapterMemory) :
  mem_inv s -> mem_inv (mem_maybeTTLCleanup now s).
Proof.
  intros H. unfold mem_maybeTTLCleanup. destruct (Z.eqb _ 0); [exact H|].
  generalize (mem_expirations s) as l. intros l. revert s H.
  induction l as [|ke l IH]; intros s H; simpl; [exact H|].
  apply IH. destruct (Z.leb _ _); [apply mem_inv_drop|]; exact H.
Qed.

Lemma mem_pres_isExpired (now : Z) (k : string) : mem_pres (mem_isExpired now k).
Proof.
  intros s H. unfold mem_isExpired. destruct (obj_get k _); [|exact H].
  destruct (Z.gtb _ _); [apply mem_inv_drop|]; exact H.
Qed.

Create HintDb mem_pres.
#[local] Hint Resolve mem_pres_ret mem_pres_throw mem_pres_gets mem_pres_assert
  mem_pres_isExpired mem_pres_map : mem_pres.

Ltac mem_pres_steps :=
  repeat (apply mem_pres_bind; [auto with mem_pres|intros]).

Lemma mem_pres_set (now : Z) (key : string) (value : jsval) (options : SetOptions) :
  mem_pres (mem_set now key value options).
Proof.
  unfold mem_set. mem_pres_steps. intros s H k'. simpl.
  rewrite map_has_obj_set. destruct (negb _).
  - rewrite map_has_obj_set. intros [->|Hh]%orb_prop; [reflexivity|]. rewrite (H k' Hh). apply orb_true_r.
  - rewrite map_has_map_delete. intros [_ Hh]%andb_prop. rewrite (H k' Hh). apply orb_true_r.
Qed.

Lemma mem_pres_get (now : Z) (key : string) : mem_pres (mem_get now key).
Proof.
  unfold mem_get. mem_pres_steps. destruct a1; [apply mem_pres_ret|].
  intros s H. destruct (obj_get _ _) as [[v|]|]; [destruct (JSON_parse v)|..]; exact H.
Qed.

Lemma mem_pres_delete (key : string) : mem_pres (mem_delete key).
Proof. unfold mem_delete. mem_pres_steps. intros s H. apply mem_inv_drop, H. Qed.

Lemma mem_pres_exists (now : Z) (key : string) : mem_pres (mem_exists now key).
Proof. unfold mem_exists. mem_pres_steps. destruct a1; auto with mem_pres. Qed.

Lemma mem_pres_keys (now : Z) (pattern : string) : mem_pres (mem_keys now pattern).
Proof.
  unfold mem_keys. apply mem_pres_bind; [auto with mem_pres|intros].
  apply mem_pres_bind; [auto with mem_pres|intros].
  apply mem_pres_bind; [apply mem_pres_filter; intros; mem_pres_steps; auto with mem_pres|intros].
  mem_pres_steps. destruct (String.eqb _ _); [auto with mem_pres|].
  destruct (glob_regex _); auto with mem_pres.
Qed.

Lemma mem_pres_clear (now : Z) (pattern : string) : mem_pres (mem_clear now pattern).
Proof.
  unfold mem_clear. apply mem_pres_bind; [auto with mem_pres|intros].
  apply mem_pres_bind; [apply mem_pres_keys|intros].
  mem_pres_steps.
  - intros s H. simpl. generalize s H. clear s H.
    induction a0 as [|key l IH]; intros s H; simpl; [exact H|]. apply IH, mem_inv_drop, H.
  - apply mem_pres_ret.
Qed.

Lemma mem_pres_setMultiple (now : Z) (pairs : list (string * jsval)) (options : SetOptions) :
  mem_pres (mem_setMultiple now pairs options).
Proof.
  unfold mem_setMultiple. mem_pres_steps. apply mem_pres_mapM. intros kv.
  apply mem_pres_bind; [apply mem_pres_set|intros; apply mem_pres_ret].
Qed.

Lemma mem_pres_getMultiple (now : Z) (keys : list string) : mem_pres (mem_getMultiple now keys).
Proof.
  unfold mem_getMultiple. mem_pres_steps.
  generalize (@nil (string * json)) as result.
  induction keys as [|key ks IH]; intros result; simpl; [apply mem_pres_ret|].
  apply mem_pres_bind; [apply mem_pres_get|intros; apply IH].
Qed.

Lemma mem_pres_expire (now : Z) (key : string) (ttl : Z) : mem_pres (mem_expire now key ttl).
Proof.
  unfold mem_expire. apply mem_pres_bind; [auto with mem_pres|intros].
  apply mem_pres_bind; [auto with mem_pres|intros k].
  intros s H. unfold st_bind at 1, st_gets. cbn beta iota.
  destruct (map_has k (mem_store s)) eqn:Hk.
  - pose proof (mem_pres_isExpired now k s H) as H1.
    unfold st_bind at 1. cbn beta iota. destruct (mem_isExpired now k s) as [[e|b] s1] eqn:E; [exact H1|].
    destruct b; simpl; [exact H1|].
    (* the entry was live: [#isExpired] left the state unchanged *)
    unfold mem_isExpired in E. destruct (obj_get k _); [destruct (Z.gtb _ _)|];
      inversion E; subst; intros k'; simpl;
      rewrite map_has_obj_set; intros [->%String.eqb_eq|Hh]%orb_prop; auto.
  - simpl. exact H.
Qed.

Lemma mem_pres_ttl (now : Z) (key : string) : mem_pres (mem_ttl now key).
Proof.
  unfold mem_ttl. mem_pres_steps. destruct (negb a1); [apply mem_pres_ret|].
  mem_pres_steps; destruct a2; auto with mem_pres.
Qed.

Lemma mem_pres_txop (now : Z) (op : Operation) : mem_pres (mem_txop now op).
Proof.
  destruct op; simpl.
  - apply mem_pres_bind; [apply mem_pres_set|intros; apply mem_pres_ret].
  - apply mem_pres_get.
  - apply mem_pres_bind; [apply mem_pres_delete|intros; apply mem_pres_ret].
Qed.

Lemma mem_pres_run (now : Z) (op : kvop) : mem_pres (mem_run now op).
Proof.
  destruct op; simpl; try apply mem_pres_gets; apply mem_pres_map.
  - apply mem_pres_set.
  - apply mem_pres_get.
  - apply mem_pres_delete.
  - apply mem_pres_exists.
  - apply mem_pres_keys.
  - apply mem_pres_clear.
  - apply mem_pres_setMultiple.
  - apply mem_pres_getMultiple.
  - apply mem_pres_expire.
  - apply mem_pres_ttl.
  - unfold mem_transaction. mem_pres_steps. apply mem_pres_mapM, mem_pres_txop.
Qed.

Lemma mem_step_inv (s s' : AdapterMemory) : mem_step s s' -> mem_inv s -> mem_inv s'.
Proof.
  intros [now op s0|now s0|now s0|s0] H.
  - apply mem_pres_run, H.
  - apply mem_inv_cleanup, H.
  - apply mem_inv_cleanup, mem_inv_with_initialized, H.
  - apply mem_inv_with_initialized, H.
Qed.

(** C10 *)
(** C10: in every state an in-memory adapter reaches from its construction,
    through any operations (with their lazy expiry checks), cleanup sweeps,
    [initialize] and [destroy], every key of the expirations map is a key of
    the value store. *)
Theorem mem_no_orphan_expirations (namespace : string) (defaultTtl interval : Z)
    (s0 s : AdapterMemory) :
  new_AdapterMemory namespace defaultTtl interval = Some s0 ->
  mem_reachable s0 s -> mem_inv s.
Proof.
  intros Hnew Hr. induction Hr as [|s s' _ IH Hs].
  - unfold new_AdapterMemory in Hnew. destruct (_ || _); [|discriminate].
    injection Hnew as <-. intros k Hk. discriminate.
  - exact (mem_step_inv s s' Hs IH).
Qed.

Lemma mem_no_orphan_expirations_witness :
  let s0 := mkAdapterMemory false "ns:" 0 0 [] [] in
  let s1 := mem_initialize 0 s0 in
  let s2 := snd (mem_run 0 (KSet "a" (JValue JNull) (Some 5%Z)) s1) in
  new_AdapterMemory "ns:" 0 0 = Some s0 /\ mem_reachable s0 s2 /\ mem_inv s2.
Proof.
  intros s0 s1 s2.
  assert (Hr : mem_reachable s0 s2).
  { apply (mem_reach_step s0 s1 s2); [|apply mem_step_run].
    apply (mem_reach_step s0 s0 s1); [apply mem_reach_here|apply mem_step_initialize]. }
  split; [reflexivity|]. split; [exact Hr|].
  apply (mem_no_orphan_expirations "ns:" 0 0 s0 s2); [reflexivity|exact Hr].
Defined.

Lemma mem_run_uninitialized (now : Z) (op : kvop) (s : AdapterMemory) :
  mem_initialized s = false ->
  mem_run now op s = match op with
                     | KInfo => (inr (RInfo "memory"), s)
                     | _ => (inl ENotInitialized, s)
                     end.
Proof.
  intros H. destruct op;
  cbv [mem_run st_map st_bind st_gets mem_set mem_get mem_delete mem_exists mem_keys
    mem_clear mem_setMultiple mem_getMultiple mem_expire mem_ttl mem_transaction
    mem_assertInitialized]; rewrite ?H; reflexivity.
Qed.

Lemma pg_run_uninitialized (now : Z) (op : kvop) (s : AdapterPostgres) :
  pg_initialized s = false ->
  pg_run now op s = match op with
                    | KInfo => (inr (RInfo "postgres"), s)
                    | _ => (inl ENotInitialized, s)
                    end.
Proof.
  intros H. destruct op;
  cbv [pg_run st_map st_bind st_gets pg_set pg_get pg_delete pg_exists pg_keys
    pg_clear pg_setMultiple pg_getMultiple pg_expire pg_ttl pg_transaction
    pg_assertInitialized]; rewrite ?H; reflexivity.
Qed.

Lemma redis_run_uninitialized (now : Z) (op : kvop) (s : AdapterRedis) :
  redis_initialized s = false ->
  redis_run now op s = match op with
                       | KInfo => (inr (RInfo "redis"), s)
                       | _ => (inl ENotInitialized, s)
                       end.
Proof.
  intros H. destruct op;
  cbv [redis_run st_map st_bind st_gets redis_set redis_get redis_delete redis_exists
    redis_keys redis_clear redis_setMultiple redis_getMultiple redis_expire redis_ttl
    redis_transaction redis_assertInitialized]; rewrite ?H; reflexivity.
Qed.

Lemma deno_run_uninitialized (now : Z) (op : kvop) (s : AdapterDenoKv) :
  deno_initialized s = false ->
  deno_run now op s = match op with
                      | KInfo => (inr (RInfo "deno-kv"), s)
                      | _ => (inl ENotInitialized, s)
                      end.
Proof.
  intros H. destruct op;
  cbv [deno_run st_map st_bind st_gets deno_set deno_get deno_delete deno_exists
    deno_keys deno_clear deno_setMultiple deno_getMultiple deno_expire deno_ttl
    deno_transaction deno_assertInitialized]; rewrite ?H; reflexivity.
Qed.

(** C9 (amended): on each of the four adapters that is not initialized,
    every operation of the uniform set except [info] throws the
    not-initialized error and leaves the adapter unchanged; [info] returns
    the adapter's type tag. *)
Theorem uninitialized_adapters_refuse (now : Z) (op : kvop) :
  (forall s : AdapterMemory, adapter_initialized s = false ->
     adapter_run now op s = match op with
                            | KInfo => (inr (RInfo (@adapter_type AdapterMemory _)), s)
                            | _ => (inl ENotInitialized, s)
                            end) /\
  (forall s : AdapterPostgres, adapter_initialized s = false ->
     adapter_run now op s = match op with
                            | KInfo => (inr (RInfo (@adapter_type AdapterPostgres _)), s)
                            | _ => (inl ENotInitialized, s)
                            end) /\
  (forall s : AdapterRedis, adapter_initialized s = false ->
     adapter_run now op s = match op with
                            | KInfo => (inr (RInfo (@adapter_type AdapterRedis _)), s)
                            | _ => (inl ENotInitialized, s)
                            end) /\
  (forall s : AdapterDenoKv, adapter_initialized s = false ->
     adapter_run now op s = match op with
                            | KInfo => (inr (RInfo (@adapter_type AdapterDenoKv _)), s)
                            | _ => (inl ENotInitialized, s)
                            end).
Proof.
  split; [|split; [|split]]; intros s H.
  - apply mem_run_uninitialized, H.
  - apply pg_run_uninitialized, H.
  - apply redis_run_uninitialized, H.
  - apply deno_run_uninitialized, H.
Qed.

Lemma uninitialized_adapters_refuse_witness :
  let s := mkAdapterMemory false "ns:" 0 0 [] [] in
  adapter_initialized s = false /\
  adapter_run 0 (KGet "a") s = (inl ENotInitialized, s).
Proof.
  intros s. split; [reflexivity|].
  apply (proj1 (uninitialized_adapters_refuse 0 (KGet "a")) s). reflexivity.
Defined.

(** C9, counterexample: [info()] on an in-memory adapter that was never
    initialized returns [{ type: "memory" }] instead of failing. *)
Lemma info_without_initialize :
  mem_run 0 KInfo (mkAdapterMemory false EmptyString 0 0 [] [])
  = (inr (RInfo "memory"), mkAdapterMemory false EmptyString 0 0 [] []).
Proof. reflexivity. Qed.


(** C1: the Deno KV adapter lists keys in the database's key order, which is
    not the lexicographic order of the local keys: after setting ["a:x"] and
    ["a0"], [keys("*")] returns ["a:x"; "a0"], which is not sorted. *)
Theorem deno_keys_not_sorted :
  let s := snd (deno_setMultiple 0 [("a:x", JValue JNull); ("a0", JValue JNull)] None
                  (mkAdapterDenoKv true "ns:" 0 [])) in
  fst (deno_keys "*" s) = inr ["a:x"; "a0"] /\ sorted_by js_le ["a:x"; "a0"] = false.
Proof. split; reflexivity. Qed.

(** C2: the PostgreSQL adapter's [ttl] ignores expiry: for an entry that has
    expired (and was not swept yet) it returns the past expiry date instead of
    [false], while [exists] reports the key absent. *)
Theorem pg_ttl_of_expired_row :
  let s := snd (pg_set 0 "a" (JValue (JNum 1)) (Some 1%Z) (mkAdapterPostgres true "ns:" 0 0 true [])) in
  fst (pg_exists 2000 "a" s) = inr false /\ fst (pg_ttl "a" s) = inr (TtlDate 1000).
Proof. split; reflexivity. Qed.

(** C4: [delete] of an entry that has expired but is still stored returns
    [true] on the in-memory adapter (and on the PostgreSQL adapter), while
    [exists] reports the key absent. *)
Theorem delete_of_expired_entry :
  let m := snd (mem_set 0 "a" (JValue (JNum 1)) (Some 1%Z) (mkAdapterMemory true "ns:" 0 0 [] [])) in
  let p := snd (pg_set 0 "a" (JValue (JNum 1)) (Some 1%Z) (mkAdapterPostgres true "ns:" 0 0 true [])) in
  fst (mem_exists 2000 "a" m) = inr false /\ fst (mem_delete "a" m) = inr true /\
  fst (pg_exists 2000 "a" p) = inr false /\ fst (pg_delete "a" p) = inr true.
Proof. repeat split; reflexivity. Qed.

(** C5: on the Deno KV adapter, after [set(k, null)] the entry is stored, yet
    [exists(k)] returns [false]. *)
Theorem deno_exists_after_set_null :
  let s := snd (deno_set 0 "a" (JValue JNull) None (mkAdapterDenoKv true "ns:" 0 [])) in
  kv_get ["ns:"; "a"] (deno_db s) = Some "null" /\ fst (deno_exists "a" s) = inr false.
Proof. split; reflexivity. Qed.

(** C6: on the PostgreSQL adapter, [getMultiple] maps a key whose stored value
    is [0] to [null], while [get] of that key returns [0]. *)
Theorem pg_getMultiple_drops_falsy :
  let s := snd (pg_set 0 "a" (JValue (JNum 0)) None (mkAdapterPostgres true "ns:" 0 0 true [])) in
  fst (pg_get 0 "a" s) = inr (JNum 0) /\ fst (pg_getMultiple 0 ["a"] s) = inr [("a", JNull)].
Proof. split; reflexivity. Qed.

(** C7: on the in-memory adapter, the pattern ["a.c"] matches the key ["abc"]:
    a [.] in a pattern is not matched literally. *)
Theorem mem_keys_dot_is_wildcard :
  let s := snd (mem_set 0 "abc" (JValue JNull) None (mkAdapterMemory true "ns:" 0 0 [] [])) in
  fst (mem_keys 0 "a.c" s) = inr ["abc"].
Proof. reflexivity. Qed.

Lemma pg_set_state (now : Z) (key : string) (value : jsval) (options : SetOptions)
    (s : AdapterPostgres) :
  pg_initialized s = true -> pg_table_exists s = true ->
  String.length (_withNs (pg_namespace s) key) <= 512 ->
  jsval_wf value = true ->
  let ttl := ttl_or options (pg_defaultTtl s) in
  snd (pg_set now key value options s) =
    pg_with_table s true
      (obj_set (_withNs (pg_namespace s) key)
         (match value with JUndefined => JNull | JValue v => v end,
          if negb (Z.eqb ttl 0) then Some (now + ttl * 1000)%Z else None)
         (pg_rows s)).
Proof.
  intros Hi Ht Hl Hwf ttl. unfold pg_set, st_bind, pg_assertInitialized, st_gets, pg_query.
  rewrite Hi. cbn beta iota. rewrite Ht. unfold pg_upsert.
  replace (Nat.ltb 512 _) with false by (symmetry; apply Nat.ltb_ge; exact Hl).
  unfold pg_jsonb_in. rewrite JSON_parse_stringify
    by (destruct value; [reflexivity|exact Hwf]).
  reflexivity.
Qed.

Lemma redis_set_state (now : Z) (key : string) (value : jsval) (options : SetOptions)
    (s : AdapterRedis) :
  redis_initialized s = true ->
  (0 <= redis_defaultTtl s)%Z -> (forall t, options = Some t -> (0 <= t)%Z) ->
  let ttl := ttl_or options (redis_defaultTtl s) in
  obj_get (_withNs (redis_namespace s) key) (redis_db (snd (redis_set now key value options s)))
  = Some (stringify (match value with JUndefined => JNull | JValue v => v end),
          if negb (Z.eqb ttl 0) then Some (now + ttl * 1000)%Z else None).
Proof.
  intros Hi Hd Ho ttl.
  assert (Hpos : (0 <= ttl)%Z).
  { unfold ttl, ttl_or. destruct options as [t|]; [|exact Hd].
    destruct (Z.eqb t 0); [exact Hd|apply Ho; reflexivity]. }
  unfold redis_set, st_bind, redis_assertInitialized, st_gets. rewrite Hi. cbn beta iota.
  unfold id.
  unfold ttl_or_undefined, redis_cmd_set. unfold ttl in *.
  destruct (Z.eqb (ttl_or options (redis_defaultTtl s)) 0) eqn:E; simpl negb; cbv iota.
  - unfold st_modify, st_ret. simpl. apply obj_get_obj_set_eq.
  - apply Z.eqb_neq in E. replace (Z.leb (ttl_or options (redis_defaultTtl s)) 0) with false by lia.
    unfold st_modify, st_ret. simpl. apply obj_get_obj_set_eq.
Qed.




(* ================================================================== *)
(** * Further properties of the adapters *)

Lemma string_compare_le_trans (a b c : string) :
  String.compare a b <> Gt -> String.compare b c <> Gt -> String.compare a c <> Gt.
Proof.
  revert b c; induction a as [| x a IH]; intros [| y b] [| z c]; simpl; try congruence.
  unfold Ascii.compare.
  destruct (N.compare_spec (N_of_ascii x) (N_of_ascii y)) as [Hxy | Hxy | Hxy];
  destruct (N.compare_spec (N_of_ascii y) (N_of_ascii z)) as [Hyz | Hyz | Hyz];
  destruct (N.compare_spec (N_of_ascii x) (N_of_ascii z)) as [Hxz | Hxz | Hxz];
  try congruence; try lia; eauto.
Qed.

Lemma js_le_trans (a b c : string) :
  js_le a b = true -> js_le b c = true -> js_le a c = true.
Proof.
  unfold js_le, String.leb.
  pose proof (string_compare_le_trans a b c).
  destruct (String.compare a b), (String.compare b c), (String.compare a c);
  intuition congruence.
Qed.

Lemma js_le_total (a b : string) : js_le a b = false -> js_le b a = true.
Proof. unfold js_le; destruct (String.leb_total a b); congruence. Qed.

Section sorting.
Context {A : Type} (le : A -> A -> bool).
Hypothesis le_total : forall x y, le x y = false -> le y x = true.

Lemma insert_by_sorted_cons (y x : A) (l : list A) :
  le y x = true -> sorted_by le (y :: l) = true -> sorted_by le (y :: insert_by le x l) = true.
Proof.
  revert y; induction l as [| a l IH]; intros y Hyx Hs; simpl in *.
  - rewrite Hyx; reflexivity.
  - apply andb_prop in Hs as [Hya Hs].
    destruct (le x a) eqn:Hxa; simpl.
    + rewrite Hyx, Hxa; exact Hs.
    + rewrite Hya; apply IH; [apply le_total; exact Hxa | exact Hs].
Qed.

Lemma insert_by_sorted (x : A) (l : list A) :
  sorted_by le l = true -> sorted_by le (insert_by le x l) = true.
Proof.
  destruct l as [| a l]; intros Hs; [reflexivity |]; simpl.
  destruct (le x a) eqn:Hxa.
  - change (le x a && sorted_by le (a :: l) = true); rewrite Hxa; exact Hs.
  - apply insert_by_sorted_cons; [apply le_total; exact Hxa | exact Hs].
Qed.

Lemma sort_by_sorted (l : list A) : sorted_by le (sort_by le l) = true.
Proof. induction l; simpl; [reflexivity | apply insert_by_sorted; assumption]. Qed.

Hypothesis le_trans : forall x y z, le x y = true -> le y z = true -> le x z = true.

Lemma sorted_by_skip (x a : A) (l : list A) :
  sorted_by le (x :: a :: l) = true -> sorted_by le (x :: l) = true.
Proof.
  destruct l as [| b l]; [reflexivity |]; simpl.
  intros H; apply andb_prop in H as [Hxa H]; apply andb_prop in H as [Hab H].
  rewrite (le_trans x a b Hxa Hab); exact H.
Qed.

Lemma sorted_by_tail (x : A) (l : list A) :
  sorted_by le (x :: l) = true -> sorted_by le l = true.
Proof. destruct l; simpl; [reflexivity |]; intros H; apply andb_prop in H; tauto. Qed.

Lemma filter_sorted_cons (f : A -> bool) (x : A) (l : list A) :
  sorted_by le (x :: l) = true -> sorted_by le (x :: List.filter f l) = true.
Proof.
  revert x; induction l as [| a l IH]; intros x Hs; [reflexivity |]; simpl.
  destruct (f a).
  - pose proof Hs as Hs'; simpl in Hs'; apply andb_prop in Hs' as [Hxa Hs'].
    change (le x a && sorted_by le (a :: List.filter f l) = true).
    rewrite Hxa; apply IH; exact Hs'.
  - apply IH; eapply sorted_by_skip; exact Hs.
Qed.

Lemma filter_sorted (f : A -> bool) (l : list A) :
  sorted_by le l = true -> sorted_by le (List.filter f l) = true.
Proof.
  induction l as [| a l IH]; intros Hs; [reflexivity |]; simpl.
  destruct (f a).
  - apply filter_sorted_cons; exact Hs.
  - apply IH; eapply sorted_by_tail; exact Hs.
Qed.
End sorting.

Lemma toSorted_sorted (l : list string) : sorted_by js_le (toSorted l) = true.
Proof. apply sort_by_sorted, js_le_total. Qed.




Lemma obj_get_map_delete {A} (k k' : string) (m : list (string * A)) :
  obj_get k (map_delete k' m) = if String.eqb k k' then None else obj_get k m.
Proof.
  unfold map_delete. induction m as [|[k'' v''] m IH]; simpl.
  - destruct (String.eqb k k'); reflexivity.
  - destruct (String.eqb_spec k'' k') as [->|Hne]; simpl.
    + rewrite IH. destruct (String.eqb k k'); reflexivity.
    + rewrite IH. destruct (String.eqb_spec k k') as [->|]; [|reflexivity].
      apply String.eqb_neq in Hne. rewrite String.eqb_sym, Hne. reflexivity.
Qed.

Lemma obj_get_obj_set_neq {A} (k k' : string) (v : A) (o : list (string * A)) :
  k <> k' -> obj_get k (obj_set k' v o) = obj_get k o.
Proof.
  intros Hne. apply String.eqb_neq in Hne.
  induction o as [|[k'' v''] o IH]; simpl; [rewrite Hne; reflexivity|].
  destruct (String.eqb_spec k' k'') as [->|]; simpl; [rewrite Hne; reflexivity|].
  rewrite IH; reflexivity.
Qed.

Lemma mem_delete_state (key : string) (s : AdapterMemory) :
  mem_initialized s = true ->
  mem_delete key s =
    (inr (map_has (_withNs (mem_namespace s) key) (mem_store s)),
     mem_drop (_withNs (mem_namespace s) key) s).
Proof. intros Hi. unfold mem_delete, st_bind, mem_assertInitialized. rewrite Hi. reflexivity. Qed.

(** Extra: after [delete(key)] on an initialized in-memory adapter, [get(key)] returns null, [exists(key)] returns false and a second [delete(key)] returns false. *)
Theorem mem_delete_then_absent (now : Z) (key : string) (s : AdapterMemory) :
  mem_initialized s = true ->
  let s1 := snd (mem_delete key s) in
  fst (mem_get now key s1) = inr JNull /\
  fst (mem_exists now key s1) = inr false /\
  fst (mem_delete key s1) = inr false.
Proof.
  intros Hi s1. unfold s1; rewrite mem_delete_state by exact Hi; simpl snd.
  set (k := _withNs (mem_namespace s) key).
  assert (Hi' : mem_initialized (mem_drop k s) = true) by exact Hi.
  assert (He : obj_get k (mem_expirations (mem_drop k s)) = None).
  { simpl. rewrite obj_get_map_delete, String.eqb_refl. reflexivity. }
  assert (Hs : obj_get k (mem_store (mem_drop k s)) = None).
  { simpl. rewrite obj_get_map_delete, String.eqb_refl. reflexivity. }
  assert (Hh : map_has k (mem_store (mem_drop k s)) = false).
  { simpl. rewrite map_has_map_delete, String.eqb_refl. reflexivity. }
  split; [|split].
  - rewrite mem_get_live by (try exact Hi'; intros e; change (mem_namespace (mem_drop k s)) with (mem_namespace s); fold k; rewrite He; discriminate).
    change (mem_namespace (mem_drop k s)) with (mem_namespace s); fold k. rewrite Hs. reflexivity.
  - unfold mem_exists, st_bind, mem_assertInitialized, st_gets. rewrite Hi'.
    change (mem_namespace (mem_drop k s)) with (mem_namespace s); fold k.
    unfold mem_isExpired; rewrite He. exact (f_equal inr Hh).
  - rewrite mem_delete_state by exact Hi'.
    change (mem_namespace (mem_drop k s)) with (mem_namespace s); fold k.
    simpl fst. simpl in Hh. rewrite Hh. reflexivity.
Qed.

Lemma withNs_inj (ns a b : string) : _withNs ns a = _withNs ns b -> a = b.
Proof.
  unfold _withNs. induction ns as [|c ns IH]; simpl; [tauto|].
  intros E; inversion E; auto.
Qed.

Lemma mem_get_fst (now : Z) (key : string) (s : AdapterMemory) :
  mem_initialized s = true ->
  fst (mem_get now key s) =
    let k := _withNs (mem_namespace s) key in
    if match obj_get k (mem_expirations s) with Some e => Z.gtb now e | None => false end
    then inr JNull
    else match obj_get k (mem_store s) with
         | None | Some None => inr JNull
         | Some (Some value) =>
             match JSON_parse value with Some v => inr v | None => inl ESyntax end
         end.
Proof.
  intros Hi. unfold mem_get, st_bind, mem_assertInitialized, st_gets. rewrite Hi.
  unfold mem_isExpired. simpl.
  destruct (obj_get _ (mem_expirations s)) as [e|]; [destruct (Z.gtb now e)|]; simpl;
  try reflexivity;
  destruct (obj_get _ (mem_store s)) as [[v|]|]; try reflexivity;
  destruct (JSON_parse v); reflexivity.
Qed.

(** Extra: on an initialized in-memory adapter, [set(key, ...)] does not change what [get(key')] returns for any other key [key'], at any time. *)
Theorem mem_set_other_key (now now' : Z) (key key' : string) (value : jsval)
    (options : SetOptions) (s : AdapterMemory) :
  mem_initialized s = true -> key' <> key ->
  fst (mem_get now' key' (snd (mem_set now key value options s))) = fst (mem_get now' key' s).
Proof.
  intros Hi Hne. rewrite mem_set_state by exact Hi. simpl snd.
  rewrite !mem_get_fst by assumption. simpl.
  assert (Hk : _withNs (mem_namespace s) key' <> _withNs (mem_namespace s) key)
    by (intros E; apply Hne, (withNs_inj _ _ _ E)).
  rewrite obj_get_obj_set_neq by exact Hk.
  destruct (negb _).
  - rewrite obj_get_obj_set_neq by exact Hk. reflexivity.
  - rewrite obj_get_map_delete. apply String.eqb_neq in Hk. rewrite Hk. reflexivity.
Qed.


Lemma mem_ttl_fst (now : Z) (key : string) (s : AdapterMemory) :
  mem_initialized s = true ->
  fst (mem_ttl now key s) =
    let k := _withNs (mem_namespace s) key in
    if negb (map_has k (mem_store s)) then inr TtlFalse else
    match obj_get k (mem_expirations s) with
    | None => inr TtlNull
    | Some e => if Z.gtb now e then inr TtlFalse else inr (TtlDate e)
    end.
Proof.
  intros Hi. unfold mem_ttl, st_bind, mem_assertInitialized, st_gets, st_ret. rewrite Hi.
  simpl. destruct (map_has _ _); simpl; [|reflexivity].
  unfold mem_isExpired. destruct (obj_get _ _) as [e|] eqn:E; simpl; [|rewrite E; reflexivity].
  destruct (Z.gtb now e); simpl; [reflexivity|rewrite E; reflexivity].
Qed.




Lemma mem_getMultiple_keys (now : Z) (keys : list string) (s s' : AdapterMemory)
    (r : list (string * json)) :
  NoDup keys -> mem_getMultiple now keys s = (inr r, s') -> r.*1 = keys.
Proof.
  intros Hnd. unfold mem_getMultiple, st_bind at 1, mem_assertInitialized.
  destruct (mem_initialized s); [|discriminate].
  assert (Hnd' : NoDup ((@nil (string * json)).*1 ++ keys)) by exact Hnd.
  change keys with ((@nil (string * json)).*1 ++ keys) at 2.
  clear Hnd. revert Hnd'. generalize (@nil (string * json)) as acc. revert s.
  induction keys as [|key ks IH]; intros s0 acc Hnd0 E.
  - simpl in E. inversion E. subst. rewrite app_nil_r. reflexivity.
  - unfold st_bind at 1 in E. destruct (mem_get now key s0) as [[e|v] s1]; [discriminate|].
    rewrite obj_set_fresh in E.
    + rewrite (IH s1 (acc ++ [(key, v)])); [rewrite fmap_app; simpl; rewrite <- app_assoc; reflexivity| |exact E].
      rewrite fmap_app, <- app_assoc. exact Hnd0.
    + intros Hin. apply NoDup_app in Hnd0 as (_ & Hd & _). apply (Hd key Hin). left.
Qed.

Lemma withoutNs_withNs (ns key : string) : _withoutNs ns (_withNs ns key) = key.
Proof.
  unfold _withoutNs, _withNs. destruct ns as [|c ns]; [reflexivity|].
  simpl. induction ns as [|c' ns IH]; [reflexivity|]. exact IH.
Qed.

Lemma map_has_In {A} (k : string) (m : list (string * A)) :
  map_has k m = true <-> k ∈ m.*1.
Proof.
  induction m as [|[k' v] m IH]; simpl.
  - split; [discriminate|intros H; inversion H].
  - rewrite orb_true_iff, IH, String.eqb_eq, elem_of_cons. tauto.
Qed.

Lemma insert_by_elem {A} (le : A -> A -> bool) (x y : A) (l : list A) :
  y ∈ insert_by le x l <-> y = x \/ y ∈ l.
Proof.
  induction l as [|a l IH]; simpl.
  - rewrite list_elem_of_singleton. split; [tauto|]. intros [H|H]; [exact H|inversion H].
  - destruct (le x a); rewrite !elem_of_cons; [tauto|]. rewrite IH. tauto.
Qed.

Lemma sort_by_elem {A} (le : A -> A -> bool) (y : A) (l : list A) :
  y ∈ sort_by le l <-> y ∈ l.
Proof.
  induction l as [|a l IH]; simpl; [tauto|]. rewrite insert_by_elem, IH, elem_of_cons. tauto.
Qed.

(** The live-key filter of [keys]: it only removes keys from the store, and
    a listed key still in the store afterwards was kept. *)
Lemma mem_keys_filter_spec (now : Z) (l live : list string) (s s1 : AdapterMemory) :
  st_filter (fun k => let! e := mem_isExpired now k in st_ret (negb e)) l s = (inr live, s1) ->
  mem_namespace s1 = mem_namespace s /\
  (forall k, map_has k (mem_store s1) = true -> map_has k (mem_store s) = true) /\
  (forall k, k ∈ l -> map_has k (mem_store s1) = true -> k ∈ live).
Proof.
  revert s live. induction l as [|x l IH]; intros s live E.
  - inversion E; subst. split; [reflexivity|]. split; [tauto|]. intros k Hk; inversion Hk.
  - simpl in E. unfold st_bind at 1 in E. unfold st_bind at 1 in E.
    destruct (mem_isExpired now x s) as [[e|b] s0] eqn:Ex; [discriminate|].
    unfold st_ret at 1 in E. unfold st_bind at 1 in E.
    destruct (st_filter _ l s0) as [[e|r] s2] eqn:Er; [discriminate|].
    inversion E; subst s2 live. clear E.
    destruct (IH _ _ Er) as (Hns & Hsub & Hin).
    assert (Hx : (b = true /\ s0 = mem_drop x s) \/ (b = false /\ s0 = s)).
    { unfold mem_isExpired in Ex. destruct (obj_get x _) as [e|]; [destruct (Z.gtb now e)|];
      inversion Ex; auto. }
    assert (Hsub0 : forall k, map_has k (mem_store s0) = true -> map_has k (mem_store s) = true).
    { destruct Hx as [[_ ->]|[_ ->]]; [|tauto]. intros k. simpl.
      rewrite map_has_map_delete. intros H; apply andb_prop in H; tauto. }
    split; [destruct Hx as [[_ ->]|[_ ->]]; exact Hns|]. split; [auto|].
    intros k Hk Hh. apply elem_of_cons in Hk as [->|Hk].
    + destruct Hx as [[-> ->]|[-> ->]]; simpl; [|left].
      exfalso. apply Hsub in Hh. simpl in Hh. rewrite map_has_map_delete, String.eqb_refl in Hh.
      discriminate.
    + destruct (negb b); [right|]; apply Hin; assumption.
Qed.

Lemma mem_drops_spec (ns : string) (l : list string) (s : AdapterMemory) (k : string) :
  map_has k (mem_store (fold_left (fun s' key => mem_drop (_withNs ns key) s') l s)) = true ->
  map_has k (mem_store s) = true /\ (forall x, x ∈ l -> k <> _withNs ns x).
Proof.
  revert s. induction l as [|x l IH]; intros s H; simpl in H.
  - split; [exact H|]. intros x Hx; inversion Hx.
  - destruct (IH _ H) as [H1 H2]. simpl in H1. rewrite map_has_map_delete in H1.
    apply andb_prop in H1 as [Hne H1]. split; [exact H1|].
    intros y Hy. apply elem_of_cons in Hy as [->|Hy]; [|auto].
    apply negb_true_iff, String.eqb_neq in Hne. exact Hne.
Qed.

Lemma map_has_none_nil {A} (m : list (string * A)) :
  (forall k, map_has k m = false) -> m = [].
Proof.
  destruct m as [|[k v] m]; [reflexivity|]. intros H. specialize (H k). simpl in H.
  rewrite String.eqb_refl in H. discriminate.
Qed.

(** Extra: when every stored key carries the adapter's namespace, a successful [clear("*")] of the in-memory adapter leaves its store empty. *)
Theorem mem_clear_all_empties_store (now : Z) (s s' : AdapterMemory) (n : Z) :
  (forall k, map_has k (mem_store s) = true -> exists r, k = _withNs (mem_namespace s) r) ->
  mem_clear now "*" s = (inr n, s') -> mem_store s' = [].
Proof.
  intros Hpre E. unfold mem_clear, st_bind at 1, mem_assertInitialized in E.
  destruct (mem_initialized s) eqn:Hi; [|discriminate].
  unfold st_bind at 1 in E. unfold mem_keys, st_bind at 1, mem_assertInitialized in E.
  rewrite Hi in E. unfold st_bind at 1, st_gets in E. unfold st_bind at 1 in E.
  destruct (st_filter _ _ s) as [[e|live] s1] eqn:Ef; [discriminate|].
  destruct (mem_keys_filter_spec _ _ _ _ _ Ef) as (Hns & Hsub & Hin).
  simpl in E. inversion E; subst s'. clear E.
  apply map_has_none_nil. intros k.
  destruct (map_has k _) eqn:Hk; [exfalso|reflexivity].
  apply mem_drops_spec in Hk as [Hk1 Hk2].
  pose proof (Hsub _ Hk1) as Hk0.
  destruct (Hpre _ Hk0) as [r ->].
  apply (Hk2 r); [|rewrite Hns; reflexivity].
  apply sort_by_elem, list_elem_of_In, in_map_iff. exists (_withNs (mem_namespace s) r).
  rewrite Hns, withoutNs_withNs. split; [reflexivity|].
  apply list_elem_of_In, Hin; [|exact Hk1].
  apply map_has_In in Hk0. apply list_elem_of_In in Hk0. apply list_elem_of_In.
  exact Hk0.
Qed.

Lemma elem_of_map_delete {A} (kv : string * A) (k : string) (m : list (string * A)) :
  kv ∈ map_delete k m <-> kv ∈ m /\ kv.1 <> k.
Proof.
  unfold map_delete. rewrite !list_elem_of_In, filter_In, negb_true_iff, String.eqb_neq. tauto.
Qed.

Lemma mem_sweep_spec (now : Z) (l : list (string * Z)) (s : AdapterMemory) :
  let s' := fold_left (fun s' ke => if Z.leb ke.2 now then mem_drop ke.1 s' else s') l s in
  (forall kv, kv ∈ mem_expirations s' ->
     kv ∈ mem_expirations s /\ forall ke, ke ∈ l -> (ke.2 <= now)%Z -> kv.1 <> ke.1) /\
  (forall k, (forall e, (k, e) ∉ l) -> obj_get k (mem_store s') = obj_get k (mem_store s)).
Proof.
  revert s. induction l as [|[k e] l IH]; intros s s'; simpl in s'.
  - split; [|reflexivity]. intros kv Hkv. split; [exact Hkv|]. intros ke Hke; inversion Hke.
  - destruct (IH (if Z.leb e now then mem_drop k s else s)) as [H1 H2]. fold s' in H1, H2.
    split.
    + intros kv Hkv. destruct (H1 kv Hkv) as [Hin Hne].
      destruct (Z.leb_spec e now) as [Hle|Hgt].
      * simpl in Hin. apply elem_of_map_delete in Hin as [Hin Hk].
        split; [exact Hin|]. intros ke Hke. apply elem_of_cons in Hke as [->|Hke]; [|auto].
        intros _. exact Hk.
      * split; [exact Hin|]. intros ke Hke. apply elem_of_cons in Hke as [->|Hke]; [|auto].
        simpl. lia.
    + intros k' Hk'. rewrite H2 by (intros e' He'; apply (Hk' e'); right; exact He').
      destruct (Z.leb e now); [|reflexivity]. simpl. rewrite obj_get_map_delete.
      destruct (String.eqb_spec k' k) as [->|]; [|reflexivity].
      exfalso. apply (Hk' e). left.
Qed.

(** Extra: with a non-zero cleanup interval, [initialize()] of the in-memory adapter removes every expiry that is not in the future, and keeps every entry that has no expiry. *)
Theorem mem_initialize_sweeps (now : Z) (s : AdapterMemory) :
  mem_ttlCleanupIntervalSec s <> 0%Z ->
  let s' := mem_initialize now s in
  (forall k e, (k, e) ∈ mem_expirations s' -> (now < e)%Z) /\
  (forall k, (forall e, (k, e) ∉ mem_expirations s) ->
     obj_get k (mem_store s') = obj_get k (mem_store s)).
Proof.
  intros Hint s'. unfold s', mem_initialize, mem_maybeTTLCleanup. simpl.
  apply Z.eqb_neq in Hint. rewrite Hint.
  destruct (mem_sweep_spec now (mem_expirations s) (mem_with_initialized s true)) as [H1 H2].
  split.
  - intros k e Hke. destruct (H1 _ Hke) as [Hin Hne].
    destruct (Z.le_gt_cases e now) as [Hle|Hgt]; [|lia].
    exfalso. exact (Hne (k, e) Hin Hle eq_refl).
  - intros k Hk. rewrite H2 by exact Hk. reflexivity.
Qed.

Lemma pg_find_live_obj_set_eq (now : Z) (k : string) (x : json * option Z) (rows : list pg_row) :
  pg_live now (k, x) = true -> pg_find_live now k (obj_set k x rows) = Some x.1.
Proof.
  intros Hl. unfold pg_find_live.
  induction rows as [|[k' x'] rows IH]; simpl.
  - rewrite String.eqb_refl, Hl. reflexivity.
  - destruct (String.eqb_spec k k') as [->|Hne]; simpl.
    + rewrite String.eqb_refl. unfold pg_live in Hl |- *. simpl in *. rewrite Hl. reflexivity.
    + apply String.eqb_neq in Hne. rewrite String.eqb_sym, Hne. simpl. exact IH.
Qed.


Lemma pg_find_live_map_delete (now : Z) (k : string) (rows : list pg_row) :
  pg_find_live now k (map_delete k rows) = None.
Proof.
  unfold pg_find_live, map_delete.
  induction rows as [|[k' x] rows IH]; [reflexivity|]. simpl.
  destruct (String.eqb_spec k' k) as [->|Hne]; simpl; [exact IH|].
  apply String.eqb_neq in Hne. rewrite Hne. exact IH.
Qed.



Lemma obj_get_filter {A} (p : string * A -> bool) (k : string) (x : A) (m : list (string * A)) :
  obj_get k m = Some x -> p (k, x) = true -> obj_get k (List.filter p m) = Some x.
Proof.
  induction m as [|[k' x'] m IH]; simpl; [discriminate|].
  destruct (String.eqb_spec k k') as [->|Hne].
  - intros [= ->] Hp. rewrite Hp. simpl. rewrite String.eqb_refl. reflexivity.
  - intros H Hp. destruct (p (k', x')); simpl; [|auto].
    apply String.eqb_neq in Hne. rewrite Hne. auto.
Qed.



Lemma obj_get_filter_none {A} (p : string * A -> bool) (k : string) (m : list (string * A)) :
  obj_get k m = None -> obj_get k (List.filter p m) = None.
Proof.
  induction m as [|[k' x'] m IH]; simpl; [reflexivity|].
  destruct (String.eqb k k') eqn:E; [discriminate|]. intros H.
  destruct (p (k', x')); simpl; [rewrite E|]; auto.
Qed.

Lemma map_has_obj_get {A} (k : string) (m : list (string * A)) :
  map_has k m = true -> exists x, obj_get k m = Some x.
Proof.
  induction m as [|[k' x'] m IH]; simpl; [discriminate|].
  destruct (String.eqb k k'); simpl; eauto.
Qed.


Lemma length_filter_pos {A} (f : A -> bool) (l : list A) :
  Z.ltb 0 (Z.of_nat (length (List.filter f l))) = existsb f l.
Proof.
  induction l as [|x l IH]; [reflexivity|]. simpl.
  destruct (f x); simpl; [apply Z.ltb_lt; lia|exact IH].
Qed.

Lemma map_has_existsb {A} (k : string) (m : list (string * A)) :
  map_has k m = existsb (fun e => existsb (String.eqb e.1) [k]) m.
Proof.
  induction m as [|[k' x] m IH]; [reflexivity|]. simpl.
  rewrite IH, orb_false_r, String.eqb_sym. reflexivity.
Qed.

(** Extra: on an initialized Redis adapter, [delete(key)] returns what [exists(key)] returned before it, and [exists(key)] returns false afterwards. *)
Theorem redis_delete_then_absent (now : Z) (key : string) (s : AdapterRedis) :
  redis_initialized s = true ->
  fst (redis_delete now key s) = fst (redis_exists now key s) /\
  fst (redis_exists now key (snd (redis_delete now key s))) = inr false.
Proof.
  intros Hi. unfold redis_delete, redis_exists, st_bind, redis_assertInitialized, st_gets.
  rewrite Hi. simpl. split.
  - rewrite length_filter_pos, map_has_existsb. reflexivity.
  - rewrite Hi. simpl. rewrite map_has_existsb. unfold redis_keyspace.
    set (k := _withNs (redis_namespace s) key).
    f_equal. induction (List.filter (redis_live now) (redis_db s)) as [|e l IH]; [reflexivity|].
    simpl. destruct (String.eqb e.1 k) eqn:E; simpl; [exact IH|].
    destruct (redis_live now e); simpl; [rewrite E|]; exact IH.
Qed.

Lemma kv_get_kv_set_eq (key : list string) (e : string * option Z) (db : list kv_entry) :
  kv_get key (kv_set key e db) = Some e.1.
Proof.
  assert (Hk : list_eqb key key = true) by (apply bool_decide_eq_true; reflexivity).
  destruct e as [v x]. induction db as [|[k [v' x']] db IH]; simpl.
  - rewrite Hk. reflexivity.
  - destruct (list_eqb key k) eqn:E; simpl; [rewrite Hk; reflexivity|].
    destruct (kvkey_lt key k); simpl; [rewrite Hk; reflexivity|]. rewrite E. exact IH.
Qed.


Lemma kv_get_kv_delete (key : list string) (db : list kv_entry) :
  kv_get key (kv_delete key db) = None.
Proof.
  unfold kv_delete. induction db as [|[k [v x]] db IH]; [reflexivity|]. simpl.
  destruct (list_eqb k key) eqn:E; simpl; [exact IH|].
  replace (list_eqb key k) with false; [exact IH|].
  symmetry. unfold list_eqb in *. apply bool_decide_eq_false in E. apply bool_decide_eq_false.
  congruence.
Qed.


Lemma split_colon_free (k : string) :
  ":"%char ∉ list_ascii_of_string k -> split_colon k = (k, EmptyString).
Proof.
  induction k as [|c k IH]; simpl; [reflexivity|]. intros Hc.
  destruct (Ascii.eqb_spec c ":") as [->|Hne]; [exfalso; apply Hc; left|].
  rewrite IH; [reflexivity|]. intros H; apply Hc; right; exact H.
Qed.

Lemma split_colon_app (k r : string) :
  ":"%char ∉ list_ascii_of_string k -> split_colon (k +:+ String ":" r) = (k, r).
Proof.
  induction k as [|c k IH]; simpl; [reflexivity|]. intros Hc.
  destruct (Ascii.eqb_spec c ":") as [->|Hne]; [exfalso; apply Hc; left|].
  rewrite IH; [reflexivity|]. intros H; apply Hc; right; exact H.
Qed.


Lemma like_match_literal (c : ascii) (p s : string) :
  existsb (Ascii.eqb c) ["%"; "_"; "\"]%char = false ->
  like_match (String c p) s =
    match s with String d s' => Ascii.eqb c d && like_match p s' | EmptyString => false end.
Proof.
  destruct c as [[] [] [] [] [] [] [] []]; intros H; try discriminate H;
  destruct p as [|c' p]; reflexivity.
Qed.

Lemma glob_match_literal (c : ascii) (p s : string) :
  existsb (Ascii.eqb c) ["*"; "?"; "\"]%char = false ->
  redis_glob_match (String c p) s =
    match s with String d s' => Ascii.eqb c d && redis_glob_match p s' | EmptyString => false end.
Proof.
  destruct c as [[] [] [] [] [] [] [] []]; intros H; try discriminate H;
  destruct p as [|c' p]; reflexivity.
Qed.

Lemma replace_all_app (c : ascii) (r a b : string) :
  replace_all c r (a +:+ b) = replace_all c r a +:+ replace_all c r b.
Proof.
  induction a as [|d a IH]; simpl; [reflexivity|].
  destruct (Ascii.eqb c d); rewrite IH; [rewrite sapp_assoc|]; reflexivity.
Qed.

Lemma likePattern_app (a b : string) : likePattern (a +:+ b) = likePattern a +:+ likePattern b.
Proof. unfold likePattern. rewrite !replace_all_app. reflexivity. Qed.

Lemma likePattern_cons (c : ascii) (q : string) :
  likePattern (String c q) =
    String (if Ascii.eqb "*" c then "%" else if Ascii.eqb "?" c then "_" else c)%char
      (likePattern q).
Proof.
  unfold likePattern.
  change (replace_all "*" "%" (String c q)) with
    (if Ascii.eqb "*" c then "%" +:+ replace_all "*" "%" q else String c (replace_all "*" "%" q)).
  destruct (Ascii.eqb "*" c); [reflexivity|].
  change (replace_all "?" "_" (String c (replace_all "*" "%" q))) with
    (if Ascii.eqb "?" c then "_" +:+ replace_all "?" "_" (replace_all "*" "%" q)
     else String c (replace_all "?" "_" (replace_all "*" "%" q))).
  destruct (Ascii.eqb "?" c); reflexivity.
Qed.

Lemma likePattern_plain (q : string) : no_char_of ["*"; "?"]%char q = true -> likePattern q = q.
Proof.
  induction q as [|c q IH]; [reflexivity|]. unfold no_char_of; simpl.
  intros H; apply andb_prop in H as [Hc Hq]. rewrite likePattern_cons, IH by exact Hq.
  rewrite (Ascii.eqb_sym "*" c), (Ascii.eqb_sym "?" c).
  destruct (Ascii.eqb c "*"), (Ascii.eqb c "?"); simpl in Hc; try discriminate; reflexivity.
Qed.

Lemma like_match_percent (p s : string) :
  like_match (String "%" p) s =
    like_match p s || match s with String _ s' => like_match (String "%" p) s' | EmptyString => false end.
Proof. destruct s; reflexivity. Qed.

Lemma glob_match_star (p s : string) :
  redis_glob_match (String "*" p) s =
    redis_glob_match p s ||
    match s with String _ s' => redis_glob_match (String "*" p) s' | EmptyString => false end.
Proof. destruct s; reflexivity. Qed.

Lemma like_match_glob (q : string) :
  no_char_of ["%"; "_"; "\"]%char q = true ->
  forall s, like_match (likePattern q) s = redis_glob_match q s.
Proof.
  induction q as [|c q IH]; [reflexivity|]. unfold no_char_of; cbn [list_ascii_of_string forallb].
  intros H; apply andb_prop in H as [Hc Hq]. specialize (IH Hq).
  rewrite likePattern_cons.
  destruct (Ascii.eqb "*" c) eqn:H1; [apply Ascii.eqb_eq in H1; subst c|].
  - intros s. change (like_match (String "%" (likePattern q)) s = redis_glob_match (String "*" q) s).
    induction s as [|d s IHs]; rewrite like_match_percent, glob_match_star, IH;
      [reflexivity|]. rewrite IHs. reflexivity.
  - destruct (Ascii.eqb "?" c) eqn:H2; [apply Ascii.eqb_eq in H2; subst c|].
    + intros [|d s]; simpl; [reflexivity|]. apply IH.
    + intros s. rewrite like_match_literal, glob_match_literal.
      * destruct s as [|d s]; [reflexivity|]. rewrite IH. reflexivity.
      * simpl. apply negb_true_iff in Hc. simpl in Hc.
        rewrite (Ascii.eqb_sym c "*"), (Ascii.eqb_sym c "?"), H1, H2.
        destruct (Ascii.eqb c "\"); [|reflexivity]. rewrite !orb_true_r in Hc. discriminate.
      * apply negb_true_iff in Hc. exact Hc.
Qed.


Lemma glob_src_cons (c : ascii) (p : string) :
  glob_to_regex_source (String c p) =
    if Ascii.eqb "*" c then String "." (String "*" (glob_to_regex_source p))
    else if Ascii.eqb "?" c then String "." (glob_to_regex_source p)
    else String c (glob_to_regex_source p).
Proof.
  unfold glob_to_regex_source.
  change (replace_all "*" ".*" (String c p)) with
    (if Ascii.eqb "*" c then ".*" +:+ replace_all "*" ".*" p else String c (replace_all "*" ".*" p)).
  destruct (Ascii.eqb "*" c); [reflexivity|].
  change (replace_all "?" "." (String c (replace_all "*" ".*" p))) with
    (if Ascii.eqb "?" c then "." +:+ replace_all "?" "." (replace_all "*" ".*" p)
     else String c (replace_all "?" "." (replace_all "*" ".*" p))).
  destruct (Ascii.eqb "?" c); reflexivity.
Qed.

Lemma glob_src_not_star (p r : string) : glob_to_regex_source p <> String "*" r.
Proof.
  destruct p as [|c p]; [discriminate|]. rewrite glob_src_cons.
  destruct (Ascii.eqb "*" c) eqn:H1; [discriminate|].
  destruct (Ascii.eqb "?" c); [discriminate|].
  intros E; inversion E; subst. discriminate H1.
Qed.

Lemma regex_tokens_dot (r : string) :
  (forall r', r <> String "*" r') -> regex_tokens (String "." r) = cons RDot <$> regex_tokens r.
Proof.
  intros H. destruct r as [|d r]; [reflexivity|].
  destruct d as [[] [] [] [] [] [] [] []]; try reflexivity. exfalso; apply (H r); reflexivity.
Qed.

Lemma regex_tokens_literal (c : ascii) (r : string) :
  existsb (Ascii.eqb c) ["\"; "^"; "$"; "+"; "?"; "("; ")"; "["; "]"; "{"; "}"; "|"; "*"; "."]%char
  = false ->
  regex_tokens (String c r) = cons (RChar c) <$> regex_tokens r.
Proof.
  destruct c as [[] [] [] [] [] [] [] []]; intros H; try discriminate H; reflexivity.
Qed.

Lemma regex_dotstar_unfold (ts : list rtok) (s : string) :
  regex_full_match (RDotStar :: ts) s =
    regex_full_match ts s ||
    match s with
    | String d s' => negb (line_terminator d) && regex_full_match (RDotStar :: ts) s'
    | EmptyString => false
    end.
Proof. destruct s; reflexivity. Qed.

Lemma regex_glob_agree (p : string) :
  no_char_of ["\"; "^"; "$"; "+"; "("; ")"; "["; "]"; "{"; "}"; "|"; "."]%char p = true ->
  exists re, glob_regex p = Some re /\
    forall s, no_char_of [chr 10; chr 13] s = true -> regex_full_match re s = redis_glob_match p s.
Proof.
  unfold glob_regex. induction p as [|c p IH]; intros Hp.
  - exists []. split; [reflexivity|]. intros [|d s]; reflexivity.
  - unfold no_char_of in Hp. cbn [list_ascii_of_string forallb] in Hp.
    apply andb_prop in Hp as [Hc Hp]. destruct (IH Hp) as [re [Hre Hm]].
    rewrite glob_src_cons.
    destruct (Ascii.eqb "*" c) eqn:H1; [apply Ascii.eqb_eq in H1; subst c|].
    + exists (RDotStar :: re). split; [simpl; rewrite Hre; reflexivity|].
      intros s Hs. change (redis_glob_match (String "*" p) s) with (redis_glob_match (String "*" p) s).
      induction s as [|d s IHs]; rewrite regex_dotstar_unfold, glob_match_star, Hm by exact Hs;
        [reflexivity|].
      unfold no_char_of in Hs. cbn [list_ascii_of_string forallb] in Hs.
      apply andb_prop in Hs as [Hd Hs]. rewrite IHs by exact Hs.
      replace (line_terminator d) with false; [reflexivity|].
      apply negb_true_iff in Hd. unfold line_terminator. simpl in Hd.
      destruct (Ascii.eqb_spec d (chr 10)) as [|Hn1]; [discriminate|].
      destruct (Ascii.eqb_spec d (chr 13)) as [|Hn2]; [discriminate|].
      symmetry. apply orb_false_iff. split; apply Nat.eqb_neq; intros E.
      * apply Hn1. rewrite <- (ascii_nat_embedding d), E. reflexivity.
      * apply Hn2. rewrite <- (ascii_nat_embedding d), E. reflexivity.
    + destruct (Ascii.eqb "?" c) eqn:H2; [apply Ascii.eqb_eq in H2; subst c|].
      * exists (RDot :: re). split; [rewrite regex_tokens_dot by apply glob_src_not_star; rewrite Hre; reflexivity|].
        intros [|d s] Hs; [reflexivity|].
        unfold no_char_of in Hs. cbn [list_ascii_of_string forallb] in Hs.
        apply andb_prop in Hs as [Hd Hs]. simpl. rewrite Hm by exact Hs.
        replace (line_terminator d) with false; [reflexivity|].
        apply negb_true_iff in Hd. unfold line_terminator. simpl in Hd.
        destruct (Ascii.eqb_spec d (chr 10)) as [|Hn1]; [discriminate|].
        destruct (Ascii.eqb_spec d (chr 13)) as [|Hn2]; [discriminate|].
        symmetry. apply orb_false_iff. split; apply Nat.eqb_neq; intros E.
        -- apply Hn1. rewrite <- (ascii_nat_embedding d), E. reflexivity.
        -- apply Hn2. rewrite <- (ascii_nat_embedding d), E. reflexivity.
      * exists (RChar c :: re). split.
        -- rewrite regex_tokens_literal; [rewrite Hre; reflexivity|].
           apply negb_true_iff in Hc. simpl in Hc |- *.
           rewrite (Ascii.eqb_sym c "*"), (Ascii.eqb_sym c "?"), H1, H2.
           destruct (Ascii.eqb c "\"), (Ascii.eqb c "^"), (Ascii.eqb c "$"), (Ascii.eqb c "+"),
             (Ascii.eqb c "("), (Ascii.eqb c ")"), (Ascii.eqb c "["), (Ascii.eqb c "]"),
             (Ascii.eqb c "{"), (Ascii.eqb c "}"), (Ascii.eqb c "|"), (Ascii.eqb c ".");
             simpl in Hc |- *; try discriminate; reflexivity.
        -- intros s Hs. rewrite glob_match_literal.
           ++ destruct s as [|d s]; [reflexivity|].
              unfold no_char_of in Hs. cbn [list_ascii_of_string forallb] in Hs.
              apply andb_prop in Hs as [_ Hs]. simpl. rewrite Hm by exact Hs. reflexivity.
           ++ apply negb_true_iff in Hc. simpl in Hc |- *.
              rewrite (Ascii.eqb_sym c "*"), (Ascii.eqb_sym c "?"), H1, H2.
              destruct (Ascii.eqb c "\"); simpl in Hc |- *; [discriminate|reflexivity].
Qed.

Lemma glob_match_ns (ns p r : string) :
  no_char_of ["*"; "?"; "\"]%char ns = true ->
  redis_glob_match (ns +:+ p) (ns +:+ r) = redis_glob_match p r.
Proof.
  induction ns as [|c ns IH]; [reflexivity|]. unfold no_char_of.
  cbn [list_ascii_of_string forallb]. intros H. apply andb_prop in H as [Hc H].
  change (String c ns +:+ p) with (String c (ns +:+ p)).
  change (String c ns +:+ r) with (String c (ns +:+ r)).
  rewrite glob_match_literal by (apply negb_true_iff in Hc; exact Hc).
  rewrite Ascii.eqb_refl. apply IH, H.
Qed.


Lemma fold_obj_set_keys {B} (g : list (string * B) -> string -> list (string * B))
    (f : string -> B) (keys : list string) (acc : list (string * B)) :
  (forall m key, g m key = obj_set key (f key) m) ->
  NoDup (acc.*1 ++ keys) -> (fold_left g keys acc).*1 = acc.*1 ++ keys.
Proof.
  intros Hg. revert acc. induction keys as [|key ks IH]; intros acc Hnd; simpl.
  - rewrite app_nil_r. reflexivity.
  - rewrite Hg, obj_set_fresh.
    + rewrite IH; rewrite fmap_app; simpl; rewrite <- app_assoc; [reflexivity|exact Hnd].
    + intros Hin. apply NoDup_app in Hnd as (_ & Hd & _). apply (Hd key Hin). left.
Qed.

Lemma fold_obj_set_keys_nil {B} (g : list (string * B) -> string -> list (string * B))
    (f : string -> B) (keys : list string) :
  (forall m key, g m key = obj_set key (f key) m) ->
  NoDup keys -> (fold_left g keys []).*1 = keys.
Proof. intros Hg Hnd. apply (fold_obj_set_keys g f keys [] Hg Hnd). Qed.



(** ** Witnesses *)




Lemma mem_delete_then_absent_witness :
  let s := mkAdapterMemory true "ns:" 0 0 [("ns:a", Some "1")] [("ns:a", 5%Z)] in
  mem_initialized s = true /\
  fst (mem_get 0 "a" (snd (mem_delete "a" s))) = inr JNull.
Proof.
  intros s. split; [reflexivity|]. apply (mem_delete_then_absent 0 "a" s). reflexivity.
Defined.

Lemma mem_set_other_key_witness :
  let s := mkAdapterMemory true "ns:" 0 0 [("ns:b", Some "1")] [] in
  mem_initialized s = true /\ "b" <> "a" /\
  fst (mem_get 0 "b" (snd (mem_set 0 "a" (JValue JNull) (Some 5%Z) s))) = fst (mem_get 0 "b" s).
Proof.
  intros s. assert (Hne : "b" <> "a") by discriminate.
  split; [reflexivity|]. split; [exact Hne|].
  apply (mem_set_other_key 0 0 "a" "b" (JValue JNull) (Some 5%Z) s); [reflexivity|exact Hne].
Defined.





Lemma mem_clear_all_empties_store_witness :
  let s := mkAdapterMemory true "ns:" 0 0 [("ns:a", Some "1"); ("ns:b", Some "2")] [] in
  mem_clear 0 "*" s = (inr 2%Z, snd (mem_clear 0 "*" s)) /\
  mem_store (snd (mem_clear 0 "*" s)) = [].
Proof.
  intros s. assert (H : mem_clear 0 "*" s = (inr 2%Z, snd (mem_clear 0 "*" s)))
    by (vm_compute; reflexivity).
  split; [exact H|]. apply (mem_clear_all_empties_store 0 s _ 2); [|exact H].
  intros k Hk. simpl in Hk.
  destruct (String.eqb_spec k "ns:a"); [exists "a"; assumption|].
  destruct (String.eqb_spec k "ns:b"); [exists "b"; assumption|]. discriminate Hk.
Defined.

Lemma mem_initialize_sweeps_witness :
  let s := mkAdapterMemory false "ns:" 0 60 [("ns:a", Some "1"); ("ns:b", Some "2")]
             [("ns:a", 5%Z)] in
  obj_get "ns:b" (mem_store (mem_initialize 10 s)) = Some (Some "2").
Proof.
  intros s. destruct (mem_initialize_sweeps 10 s) as [_ H]; [discriminate|].
  rewrite (H "ns:b"); [reflexivity|].
  intros e He. simpl in He. rewrite list_elem_of_singleton in He. discriminate He.
Defined.







Lemma redis_delete_then_absent_witness :
  let s := mkAdapterRedis true "ns:" 0 false [("ns:a", ("1", None))] in
  fst (redis_delete 0 "a" s) = fst (redis_exists 0 "a" s) /\
  fst (redis_exists 0 "a" (snd (redis_delete 0 "a" s))) = inr false.
Proof.
  intros s. apply (redis_delete_then_absent 0 "a" s); reflexivity.
Defined.







